(** * The feature backlog server (src/mcp_server/feature_mcp.py)

    A shallow embedding of the tools of the feature server and the
    properties of its priority queue.  The table of features is a list of
    rows in insertion order; every tool is a function from the committed
    table to a response and the table the call leaves behind. *)

From Stdlib Require Import ZArith Ascii String SpecFloat.
From stdpp Require Import gmap strings list sorting.

Local Open Scope Z_scope.

(** ** Data model *)

(** Modelled from the spec: the [Feature] table is declared in
    api/database.py, whose source this development does not have.  The
    columns are those of section 3 of the specification and of the keyword
    arguments of the constructor call in [feature_create_bulk]. *)
Module Feature.
Record t : Type := mk {
  id : Z;
  priority : Z;
  category : string;
  name : string;
  description : string;
  steps : list string;
  passes : bool;
  source : string;
  batch_id : option string
}.

(** Modelled from the spec: [to_dict] is declared with the table.  The
    docstring of [feature_get_next] lists its keys: id, priority,
    category, name, description, steps, passes. *)
Record dict : Type := mk_dict {
  d_id : Z;
  d_priority : Z;
  d_category : string;
  d_name : string;
  d_description : string;
  d_steps : list string;
  d_passes : bool
}.

Definition to_dict (f : t) : dict :=
  {| d_id := id f; d_priority := priority f; d_category := category f;
     d_name := name f; d_description := description f;
     d_steps := steps f; d_passes := passes f |}.

Definition set_passes (b : bool) (f : t) : t :=
  mk (id f) (priority f) (category f) (name f) (description f)
     (steps f) b (source f) (batch_id f).

Definition set_priority (p : Z) (f : t) : t :=
  mk (id f) p (category f) (name f) (description f)
     (steps f) (passes f) (source f) (batch_id f).
End Feature.

(** The committed table, rows in insertion order. *)
Abbreviation store := (list Feature.t).

(** The error payloads [{"error": ...}] of the tools, one constructor per
    message of the source. *)
Inductive error : Type :=
  | AllPassing                    (* "All features are passing! No more work to do." *)
  | NotFound (feature_id : Z)     (* "Feature with ID {feature_id} not found" *)
  | AlreadyPassing                (* "Cannot skip a feature that is already passing" *)
  | MissingFields (i : nat)       (* "Feature at index {i} missing required fields ..." *)
  | StoreException.               (* str(e) of an exception raised by the session *)

Inductive result (A : Type) : Type :=
  | Ok (a : A)
  | Err (e : error).
Arguments Ok {A} a.
Arguments Err {A} e.

(** ** The query builder

    [session.query(...)] followed by [filter], [order_by], [limit] and one
    of [first], [all], [count]. *)
Module Query.
Section Rows.
Context {A : Type}.

Definition order_by (R : relation A) `{!RelDecision R} (q : list A) : list A :=
  merge_sort R q.

Definition first (q : list A) : option A := head q.

(** The tools validate their [limit] argument before the call: it is at
    least 1. *)
Definition limit (n : Z) (q : list A) : list A := take (Z.to_nat n) q.

Definition count (q : list A) : Z := Z.of_nat (length q).
End Rows.
End Query.

(** Orderings of the [order_by] clauses. *)
Definition priority_asc : relation Feature.t :=
  λ f g, Feature.priority f ≤ Feature.priority g.

Definition priority_id_asc : relation Feature.t :=
  λ f g, Feature.priority f < Feature.priority g
         ∨ (Feature.priority f = Feature.priority g ∧ Feature.id f ≤ Feature.id g).

Definition desc : relation Z := λ p q, q ≤ p.
Definition asc : relation Z := λ p q, p ≤ q.

#[global] Instance priority_asc_dec : RelDecision priority_asc.
Proof. intros f g. unfold priority_asc. apply _. Defined.
#[global] Instance priority_id_asc_dec : RelDecision priority_id_asc.
Proof. intros f g. unfold priority_id_asc. apply _. Defined.
#[global] Instance desc_dec : RelDecision desc.
Proof. intros p q. unfold desc. apply _. Defined.
#[global] Instance asc_dec : RelDecision asc.
Proof. intros p q. unfold asc. apply _. Defined.

Definition pending (f : Feature.t) : Prop := Feature.passes f = false.
Definition passing (f : Feature.t) : Prop := Feature.passes f = true.

(** ** feature_get_next *)

Definition feature_get_next (db : store) : result Feature.dict * store :=
  let feature :=
    Query.first (Query.order_by priority_id_asc (filter pending db)) in
  match feature with
  | None => (Err AllPassing, db)
  | Some f => (Ok (Feature.to_dict f), db)
  end.

(** ** feature_get_stats

    The percentage is a Python float.  [Float] is the binary64 arithmetic
    the expression [round((passing / total) * 100, 1)] runs on: true
    division of two integers (the correctly rounded quotient),
    multiplication, and [round] to one decimal (the decimal nearest to the
    exact binary value, ties to even, read back as a double). *)
Module Float.
Definition prec : Z := 53.
Definition emax : Z := 1024.

Definition of_int (n : Z) : spec_float :=
  match n with
  | Z0 => S754_zero false
  | Zpos m => S754_finite false m 0
  | Zneg m => S754_finite true m 0
  end.

Definition true_div (a b : Z) : spec_float :=
  SFdiv prec emax (of_int a) (of_int b).

Definition mul (x y : spec_float) : spec_float := SFmul prec emax x y.

Definition hundred : spec_float := binary_normalize prec emax 100 0 false.

(** The integer nearest to [n / d], ties to even, for [0 < d]. *)
Definition div_half_even (n d : Z) : Z :=
  let q := n `div` d in
  let r := n `mod` d in
  match 2 * r ?= d with
  | Lt => q
  | Gt => q + 1
  | Eq => if Z.even q then q else q + 1
  end.

(** [round(x, 1)]: the number of tenths, then the double nearest to it. *)
Definition tenths (x : spec_float) : option Z :=
  match x with
  | S754_zero _ => Some 0
  | S754_finite s m e =>
      let k := match e with
               | Zneg _ => div_half_even (10 * Zpos m) (2 ^ (- e))
               | _ => 10 * Zpos m * 2 ^ e
               end in
      Some (if s then - k else k)
  | _ => None
  end.

Definition round1 (x : spec_float) : spec_float :=
  match tenths x with
  | Some k => true_div k 10
  | None => x
  end.
End Float.

Record stats : Type := mk_stats {
  st_passing : Z;
  st_total : Z;
  st_percentage : spec_float
}.

Definition feature_get_stats (db : store) : stats * store :=
  let total := Query.count db in
  let passing_ := Query.count (filter passing db) in
  let percentage :=
    if decide (0 < total)
    then Float.round1 (Float.mul (Float.true_div passing_ total) Float.hundred)
    else S754_zero false in
  (mk_stats passing_ total percentage, db).

(** ** feature_get_for_regression

    [order_by(func.random())]: the store draws one number per selected row;
    [rnd i] is the draw for the [i]-th row of the filtered scan. *)
Definition by_draw : relation (Z * Feature.t) := λ a b, a.1 ≤ b.1.

#[global] Instance by_draw_dec : RelDecision by_draw.
Proof. intros a b. unfold by_draw. apply _. Defined.

Record regression : Type := mk_regression {
  rg_features : list Feature.dict;
  rg_count : Z
}.

Definition feature_get_for_regression (rnd : nat → Z) (limit : Z) (db : store)
  : regression * store :=
  let features :=
    snd <$> Query.limit limit
      (Query.order_by by_draw (imap (λ i f, (rnd i, f)) (filter passing db))) in
  (mk_regression (Feature.to_dict <$> features) (Z.of_nat (length features)), db).

(** ** feature_get_all_categories *)

Record categories : Type := mk_categories {
  cat_list : list string;
  cat_count : Z
}.

Definition distinct_categories (db : store) : list string :=
  Query.order_by String.le (remove_dups (Feature.category <$> db)).

Definition feature_get_all_categories (db : store) : categories * store :=
  let category_list := distinct_categories db in
  (mk_categories category_list (Z.of_nat (length category_list)), db).

(** ** feature_get_summary *)

Record category_stat : Type := mk_category_stat {
  cs_name : string;
  cs_total : Z;
  cs_passing : Z
}.

Record summary : Type := mk_summary {
  sm_categories : list category_stat;
  sm_overall_total : Z;
  sm_overall_passing : Z
}.

Definition sum_list (l : list Z) : Z := foldr Z.add 0 l.

Definition category_stats (db : store) : list category_stat :=
  (λ cat,
     let group := filter (λ f, Feature.category f = cat) db in
     mk_category_stat cat
       (Query.count group)
       (sum_list ((λ f, if Feature.passes f then 1 else 0) <$> group)))
  <$> distinct_categories db.

Definition feature_get_summary (db : store) : summary * store :=
  let rows := category_stats db in
  (mk_summary rows (sum_list (cs_total <$> rows)) (sum_list (cs_passing <$> rows)), db).

(** ** feature_search

    [column.ilike(pattern)] compares the lower-cased column with the
    lower-cased pattern by SQL [LIKE]: in the pattern [%] stands for any run
    of characters and [_] for any one character.  Only the letters A to Z
    have a lower case. *)
Module Like.
Definition lower (c : ascii) : ascii :=
  let n := nat_of_ascii c in
  if ((65 <=? n) && (n <=? 90))%nat then ascii_of_nat (n + 32) else c.

Definition chars (s : string) : list ascii := lower <$> list_ascii_of_string s.

Definition percent : ascii := "%"%char.
Definition underscore : ascii := "_"%char.

Fixpoint like (pattern s : list ascii) {struct pattern} : bool :=
  match pattern with
  | [] => match s with [] => true | _ :: _ => false end
  | c :: pattern' =>
      if decide (c = percent) then
        (fix skip (s : list ascii) : bool :=
           like pattern' s
           || match s with [] => false | _ :: s' => skip s' end) s
      else
        match s with
        | [] => false
        | d :: s' =>
            (bool_decide (c = underscore) || bool_decide (c = d))
            && like pattern' s'
        end
  end.

Definition ilike (column pattern : string) : bool :=
  like (chars pattern) (chars column).
End Like.

Record search_hit : Type := mk_hit {
  h_id : Z;
  h_name : string;
  h_category : string;
  h_passes : bool
}.

Record search_result : Type := mk_search {
  sr_features : list search_hit;
  sr_count : Z
}.

Definition hit (f : Feature.t) : search_hit :=
  mk_hit (Feature.id f) (Feature.name f) (Feature.category f) (Feature.passes f).

Definition search_filter (query : string) (f : Feature.t) : Prop :=
  Like.ilike (Feature.name f) ("%" ++ query ++ "%")
  || Like.ilike (Feature.description f) ("%" ++ query ++ "%").

Definition search_rows (query : string) (limit : Z) (db : store) : list Feature.t :=
  Query.limit limit (Query.order_by priority_asc (filter (search_filter query) db)).

Definition feature_search (query : string) (limit : Z) (db : store)
  : search_result * store :=
  let features := search_rows query limit db in
  (mk_search (hit <$> features) (Z.of_nat (length features)), db).

(** ** Writes of a session

    [get] is the lookup [filter(Feature.id == x).first()]; [update_where] is
    the UPDATE a commit issues for a changed attribute of a loaded row;
    [refresh] reloads the row after the commit. *)
Definition get (feature_id : Z) (db : store) : option Feature.t :=
  Query.first (filter (λ f, Feature.id f = feature_id) db).

Definition update_where (feature_id : Z) (upd : Feature.t → Feature.t) (db : store)
  : store :=
  (λ g, if decide (Feature.id g = feature_id) then upd g else g) <$> db.

Definition refresh (feature : Feature.t) (db : store) : Feature.t :=
  default feature (get (Feature.id feature) db).

Definition max_priority_result (db : store) : option Z :=
  Query.first (Query.order_by desc (Feature.priority <$> db)).

Definition min_pending (db : store) : option Z :=
  Query.first (Query.order_by asc (Feature.priority <$> filter pending db)).

(** ** feature_mark_passing *)

Definition feature_mark_passing (feature_id : Z) (db : store)
  : result Feature.dict * store :=
  match get feature_id db with
  | None => (Err (NotFound feature_id), db)
  | Some feature =>
      let db' := update_where (Feature.id feature) (Feature.set_passes true) db in
      let feature' := refresh (Feature.set_passes true feature) db' in
      (Ok (Feature.to_dict feature'), db')
  end.

(** ** feature_skip *)

Record skipped : Type := mk_skipped {
  sk_id : Z;
  sk_name : string;
  sk_old_priority : Z;
  sk_new_priority : Z;
  sk_message : string
}.

Definition feature_skip (feature_id : Z) (db : store) : result skipped * store :=
  match get feature_id db with
  | None => (Err (NotFound feature_id), db)
  | Some feature =>
      if Feature.passes feature then (Err AlreadyPassing, db)
      else
        let old_priority := Feature.priority feature in
        let new_priority :=
          match max_priority_result db with
          | Some m => m + 1
          | None => 1
          end in
        let db' :=
          update_where (Feature.id feature) (Feature.set_priority new_priority) db in
        let feature' := refresh (Feature.set_priority new_priority feature) db' in
        (Ok (mk_skipped (Feature.id feature') (Feature.name feature')
               old_priority new_priority
               ("Feature '" ++ Feature.name feature' ++ "' moved to end of queue")),
         db')
  end.

(** ** feature_create_bulk *)

(** The values of the dictionaries of [features]: text, or a list of
    texts. *)
Inductive jval : Type :=
  | JStr (s : string)
  | JList (l : list string).

#[global] Instance jval_inhabited : Inhabited jval := populate (JStr EmptyString).

Definition required_keys : list string :=
  ["category"; "name"; "description"; "steps"]%string.

Definition has_required (feature_data : gmap string jval) : bool :=
  forallb (λ key, bool_decide (is_Some (feature_data !! key))) required_keys.

(** The object [Feature(...)] builds and [session.add] records: not a row
    until the session is flushed. *)
Record new_feature : Type := mk_new {
  n_priority : Z;
  n_category : jval;
  n_name : jval;
  n_description : jval;
  n_steps : jval;
  n_passes : bool;
  n_source : string;
  n_batch_id : option string
}.

(** Modelled from the spec: the INSERT of a flush belongs to the table
    declaration and the storage engine, whose source this development does
    not have.  Section 3 gives the columns their types (texts, and a
    sequence of strings for the steps) and makes [id] unique and monotonic:
    a new row takes the identifier after the largest one, and a value that
    does not fit its column makes the flush fail. *)
Definition next_id (db : store) : Z := 1 + foldr Z.max 0 (Feature.id <$> db).

(** Modelled from the spec: the values a text column and the steps column
    take (section 3). *)
Definition text (v : jval) : option string :=
  match v with JStr s => Some s | JList _ => None end.

Definition texts (v : jval) : option (list string) :=
  match v with JList l => Some l | JStr _ => None end.

(** Modelled from the spec: the row the table stores for an object, under
    the identifier [new_id]; none when a value does not fit its column. *)
Definition to_row (new_id : Z) (o : new_feature) : option Feature.t :=
  c ← text (n_category o);
  n ← text (n_name o);
  d ← text (n_description o);
  st ← texts (n_steps o);
  Some (Feature.mk new_id (n_priority o) c n d st
          (n_passes o) (n_source o) (n_batch_id o)).

(** Modelled from the spec: the INSERT of one object, at the end of the
    table and under the next identifier. *)
Definition insert_row (o : new_feature) (db : store) : option store :=
  r ← to_row (next_id db) o; Some (db ++ [r]).

(** [session.commit()] with the objects [added] to the session: they are
    inserted in the order they were added. *)
Fixpoint flush (added : list new_feature) (db : store) : option store :=
  match added with
  | [] => Some db
  | o :: added' => db' ← insert_row o db; flush added' db'
  end.

(** The object built for the item at index [i]. *)
Definition db_feature (start_priority : Z) (source : string)
    (batch_id : option string) (i : nat) (feature_data : gmap string jval)
  : new_feature :=
  mk_new (start_priority + Z.of_nat i)
    (feature_data !!! "category"%string)
    (feature_data !!! "name"%string)
    (feature_data !!! "description"%string)
    (feature_data !!! "steps"%string)
    false source batch_id.

(** The loop [for i, feature_data in enumerate(features)], from index [i]
    on: [added] are the objects recorded in the session so far. *)
Fixpoint add_features (start_priority : Z) (source : string)
    (batch_id : option string) (i : nat) (features : list (gmap string jval))
    (added : list new_feature) (created_count : Z)
  : result (list new_feature * Z) :=
  match features with
  | [] => Ok (added, created_count)
  | feature_data :: features' =>
      if negb (has_required feature_data) then Err (MissingFields i)
      else
        add_features start_priority source batch_id (S i) features'
          (added ++ [db_feature start_priority source batch_id i feature_data])
          (created_count + 1)
  end.

(** The starting priority, by mode. *)
Definition start_priority (priority_mode : string) (features : list (gmap string jval))
    (db : store) : Z :=
  if decide (priority_mode = "prepend"%string) then
    match min_pending db with
    | Some p => p - Z.of_nat (length features)
    | None =>
        match max_priority_result db with
        | Some m => m + 1
        | None => 1
        end
    end
  else
    match max_priority_result db with
    | Some m => m + 1
    | None => 1
    end.

Record created : Type := mk_created {
  cr_created : Z;
  cr_priority_mode : string;
  cr_start_priority : Z;
  cr_source : string;
  cr_batch_id : option string
}.

Definition feature_create_bulk (features : list (gmap string jval))
    (priority_mode source : string) (batch_id : option string) (db : store)
  : result created * store :=
  let start := start_priority priority_mode features db in
  match add_features start source batch_id 0 features [] 0 with
  | Err e => (Err e, db)
  | Ok (added, created_count) =>
      match flush added db with
      | Some db' =>
          (Ok (mk_created created_count priority_mode start source batch_id), db')
      | None => (Err StoreException, db)
      end
  end.

(** ** The tools as one interface *)

Inductive op : Type :=
  | GetStats
  | GetNext
  | GetForRegression (rnd : nat → Z) (limit : Z)
  | GetAllCategories
  | GetSummary
  | Search (query : string) (limit : Z)
  | MarkPassing (feature_id : Z)
  | Skip (feature_id : Z)
  | CreateBulk (features : list (gmap string jval)) (priority_mode source : string)
               (batch_id : option string).

Inductive response : Type :=
  | RStats (r : stats)
  | RNext (r : result Feature.dict)
  | RRegression (r : regression)
  | RCategories (r : categories)
  | RSummary (r : summary)
  | RSearch (r : search_result)
  | RMarked (r : result Feature.dict)
  | RSkipped (r : result skipped)
  | RCreated (r : result created).

Definition exec (o : op) (db : store) : response * store :=
  match o with
  | GetStats => prod_map RStats id (feature_get_stats db)
  | GetNext => prod_map RNext id (feature_get_next db)
  | GetForRegression rnd limit =>
      prod_map RRegression id (feature_get_for_regression rnd limit db)
  | GetAllCategories => prod_map RCategories id (feature_get_all_categories db)
  | GetSummary => prod_map RSummary id (feature_get_summary db)
  | Search query limit => prod_map RSearch id (feature_search query limit db)
  | MarkPassing feature_id => prod_map RMarked id (feature_mark_passing feature_id db)
  | Skip feature_id => prod_map RSkipped id (feature_skip feature_id db)
  | CreateBulk features priority_mode source batch_id =>
      prod_map RCreated id (feature_create_bulk features priority_mode source batch_id db)
  end.

(** The table after a sequence of calls. *)
Definition run (ops : list op) (db : store) : store :=
  foldl (λ db o, (exec o db).2) db ops.

(** ** The client configuration (src/client.py)

    [get_project_mcp_servers] and the servers and tools [create_client]
    hands to the agent.  The file system and the interpreter are an
    environment: what [exists], [open] with [json.load], [mkdir] with
    [json.dump], [resolve] and [sys.executable] give. *)
Module Client.

(** A parsed JSON document; a number is kept as its text. *)
#[warnings="-register-all"] Inductive json : Type :=
  | JNull
  | JBool (b : bool)
  | JNumber (text : string)
  | JString (s : string)
  | JArray (l : list json)
  | JObject (m : gmap string json).

Inductive exn : Type :=
  | JSONDecodeError
  | OSError
  | UnicodeDecodeError
  | AttributeError
  | TypeError.

Inductive outcome (A : Type) : Type :=
  | Returns (a : A)
  | Raises (e : exn).
Arguments Returns {A} a.
Arguments Raises {A} e.

Record environment : Type := mk_environment {
  executable : string;              (* sys.executable *)
  source_dir : string;              (* str(Path(__file__).parent.resolve()) *)
  resolved : string;                (* str(project_dir.resolve()) *)
  settings_path : string;           (* str(settings_file.resolve()) *)
  write_settings : outcome unit;    (* project_dir.mkdir, open(.., "w"), json.dump *)
  config_exists : bool;             (* mcp_config_path.exists() *)
  config_load : outcome json        (* open(mcp_config_path, "r"), json.load *)
}.

(** [except (json.JSONDecodeError, OSError)] *)
Definition caught (e : exn) : bool :=
  match e with
  | JSONDecodeError | OSError => true
  | _ => false
  end.

(** ["cwd" in server_config] *)
Definition has_cwd (server_config : json) : outcome bool :=
  match server_config with
  | JObject m => Returns (bool_decide (is_Some (m !! "cwd"%string)))
  | JString s =>
      Returns (if String.index 0 "cwd" s is Some _ then true else false)
  | JArray l =>
      Returns (existsb (λ x, if x is JString s then bool_decide (s = "cwd"%string)
                             else false) l)
  | JNull | JBool _ | JNumber _ => Raises TypeError
  end.

(** [server_config["cwd"] = cwd] *)
Definition set_cwd (cwd : string) (server_config : json) : outcome json :=
  match server_config with
  | JObject m => Returns (JObject (<["cwd"%string := JString cwd]> m))
  | _ => Raises TypeError
  end.

(** The body of the loop over [config.items()]. *)
Definition with_cwd (cwd : string) (server_config : json) : outcome json :=
  match has_cwd server_config with
  | Raises e => Raises e
  | Returns true => Returns server_config
  | Returns false => set_cwd cwd server_config
  end.

(** The loop: the servers are updated one after the other, and the first
    exception ends the loop. *)
Definition set_cwds (cwd : string) (config : gmap string json)
  : outcome (gmap string json) :=
  map_fold
    (λ server_name server_config acc,
       match acc with
       | Raises e => Raises e
       | Returns done =>
           match with_cwd cwd server_config with
           | Raises e => Raises e
           | Returns server_config' =>
               Returns (<[server_name := server_config']> done)
           end
       end)
    (Returns ∅) config.

Definition get_project_mcp_servers (env : environment)
  : outcome (gmap string json) :=
  if negb (config_exists env) then Returns ∅
  else
    match config_load env with
    | Raises e => if caught e then Returns ∅ else Raises e
    | Returns (JObject config) =>
        match set_cwds (resolved env) config with
        | Raises e => if caught e then Returns ∅ else Raises e
        | Returns config' => Returns config'
        end
    | Returns _ => Raises AttributeError
    end.

Definition FEATURE_MCP_TOOLS : list string :=
  ["mcp__features__feature_get_stats";
   "mcp__features__feature_get_next";
   "mcp__features__feature_get_for_regression";
   "mcp__features__feature_mark_passing";
   "mcp__features__feature_skip";
   "mcp__features__feature_create_bulk"]%string.

Definition LARAVEL_BOOST_TOOLS : list string :=
  ["mcp__laravel-boost__list-artisan-commands";
   "mcp__laravel-boost__get-absolute-url";
   "mcp__laravel-boost__tinker";
   "mcp__laravel-boost__database-query";
   "mcp__laravel-boost__browser-logs";
   "mcp__laravel-boost__search-docs"]%string.

Definition PLAYWRIGHT_TOOLS : list string :=
  ["mcp__playwright__browser_navigate";
   "mcp__playwright__browser_navigate_back";
   "mcp__playwright__browser_take_screenshot";
   "mcp__playwright__browser_snapshot";
   "mcp__playwright__browser_click";
   "mcp__playwright__browser_type";
   "mcp__playwright__browser_fill_form";
   "mcp__playwright__browser_select_option";
   "mcp__playwright__browser_hover";
   "mcp__playwright__browser_drag";
   "mcp__playwright__browser_press_key";
   "mcp__playwright__browser_evaluate";
   "mcp__playwright__browser_run_code";
   "mcp__playwright__browser_console_messages";
   "mcp__playwright__browser_network_requests";
   "mcp__playwright__browser_close";
   "mcp__playwright__browser_resize";
   "mcp__playwright__browser_tabs";
   "mcp__playwright__browser_wait_for";
   "mcp__playwright__browser_handle_dialog";
   "mcp__playwright__browser_file_upload";
   "mcp__playwright__browser_install"]%string.

Definition BUILTIN_TOOLS : list string :=
  ["Read"; "Write"; "Edit"; "Glob"; "Grep"; "Bash"]%string.

Definition security_settings : json :=
  JObject
    {[ "sandbox"%string :=
         JObject {[ "enabled"%string := JBool true;
                    "autoAllowBashIfSandboxed"%string := JBool true ]};
       "permissions"%string :=
         JObject
           {[ "defaultMode"%string := JString "acceptEdits";
              "allow"%string :=
                JArray
                  (JString
                   <$> ["Read(./**)"; "Write(./**)"; "Edit(./**)"; "Glob(./**)";
                        "Grep(./**)"; "Bash(*)"]%string
                       ++ PLAYWRIGHT_TOOLS ++ FEATURE_MCP_TOOLS
                       ++ LARAVEL_BOOST_TOOLS) ]} ]}.

Definition base_mcp_servers (env : environment) : gmap string json :=
  {[ "playwright"%string :=
       JObject
         {[ "command"%string := JString "npx";
            "args"%string :=
              JArray [JString "@playwright/mcp@latest"; JString "--viewport-size";
                      JString "1280x720"] ]};
     "features"%string :=
       JObject
         {[ "command"%string := JString (executable env);
            "args"%string := JArray [JString "-m"; JString "mcp_server.feature_mcp"];
            "env"%string :=
              JObject {[ "PROJECT_DIR"%string := JString (resolved env);
                         "PYTHONPATH"%string := JString (source_dir env) ]} ]} ]}.

(** The settings file written and the options of the client built. *)
Record client : Type := mk_client {
  settings_file : json;
  model : string;
  system_prompt : string;
  setting_sources : list string;
  max_buffer_size : Z;
  allowed_tools : list string;
  mcp_servers : gmap string json;
  hooks : list (string * list (string * list string));
  max_turns : Z;
  cwd : string;
  settings : string
}.

Definition create_client (env : environment) (model_name : string)
  : outcome client :=
  match write_settings env with
  | Raises e => Raises e
  | Returns _ =>
      match get_project_mcp_servers env with
      | Raises e => Raises e
      | Returns project_mcp_servers =>
          Returns
            (mk_client security_settings model_name
               "You are an expert full-stack developer building a production-quality web application."
               ["project"%string]
               (10 * 1024 * 1024)
               (BUILTIN_TOOLS ++ PLAYWRIGHT_TOOLS ++ FEATURE_MCP_TOOLS
                ++ LARAVEL_BOOST_TOOLS)
               (project_mcp_servers ∪ base_mcp_servers env)
               [("PreToolUse", [("Bash", ["bash_security_hook"])])]%string
               1000 (resolved env) (settings_path env))
      end
  end.

(** A server entry the loop cannot give a [cwd]: neither an object, nor a
    text or a list in which Python finds ["cwd"]. *)
Definition unusable (server_config : json) : Prop :=
  match server_config with
  | JObject _ => False
  | JString s => String.index 0 "cwd" s = None
  | JArray l => JString "cwd" ∉ l
  | JNull | JBool _ | JNumber _ => True
  end.

(** The server object [m] with the [cwd] it has, or else with [dir]. *)
Definition cwd_or (dir : string) (m : gmap string json) : gmap string json :=
  match m !! "cwd"%string with
  | Some _ => m
  | None => <["cwd"%string := JString dir]> m
  end.

End Client.

(** ** Properties of a table *)

(** [id] is the primary key of the table. *)
Definition primary_key (db : store) : Prop := NoDup (Feature.id <$> db).

(** [m] is the largest priority of the table, over all rows. *)
Definition is_max_priority (db : store) (m : Z) : Prop :=
  (∃ g, g ∈ db ∧ Feature.priority g = m) ∧ ∀ g, g ∈ db → Feature.priority g ≤ m.

(** [p] is the smallest priority among the pending rows of the table. *)
Definition is_min_pending (db : store) (p : Z) : Prop :=
  (∃ g, g ∈ db ∧ Feature.passes g = false ∧ Feature.priority g = p)
  ∧ ∀ g, g ∈ db → Feature.passes g = false → p ≤ Feature.priority g.

(** An item of [features] with the four keys, each with a value of the
    type of its column. *)
Definition well_formed (feature_data : gmap string jval) : Prop :=
  ∃ c n d st,
    feature_data !! "category"%string = Some (JStr c)
    ∧ feature_data !! "name"%string = Some (JStr n)
    ∧ feature_data !! "description"%string = Some (JStr d)
    ∧ feature_data !! "steps"%string = Some (JList st).

(** An item that lacks one of the four keys. *)
Definition lacks_key (feature_data : gmap string jval) : Prop :=
  ∃ key, key ∈ required_keys ∧ feature_data !! key = None.

(** The row [f] holds the values of the item [feature_data]. *)
Definition created_from (feature_data : gmap string jval) (f : Feature.t) : Prop :=
  feature_data !! "category"%string = Some (JStr (Feature.category f))
  ∧ feature_data !! "name"%string = Some (JStr (Feature.name f))
  ∧ feature_data !! "description"%string = Some (JStr (Feature.description f))
  ∧ feature_data !! "steps"%string = Some (JList (Feature.steps f)).

(** The rows a flush makes of the objects [added], the first of them
    taking the identifier [first_id]. *)
Fixpoint rows_of (first_id : Z) (added : list new_feature) : option (list Feature.t) :=
  match added with
  | [] => Some []
  | o :: added' =>
      r ← to_row first_id o;
      rs ← rows_of (first_id + 1) added';
      Some (r :: rs)
  end.

(** The text [s] holds the text [q] as a run of consecutive characters. *)
Definition contains (q s : list ascii) : Prop := ∃ pre post, s = pre ++ q ++ post.



(** [query] is part of the name or of the description of [f], letter case
    aside. *)
Definition matches (query : string) (f : Feature.t) : Prop :=
  contains (Like.chars query) (Like.chars (Feature.name f))
  ∨ contains (Like.chars query) (Like.chars (Feature.description f)).

(** The rows [f] and [f'] agree on every column but [priority] and
    [passes]. *)
Definition same_feature (f f' : Feature.t) : Prop :=
  Feature.id f' = Feature.id f
  ∧ Feature.category f' = Feature.category f
  ∧ Feature.name f' = Feature.name f
  ∧ Feature.description f' = Feature.description f
  ∧ Feature.steps f' = Feature.steps f
  ∧ Feature.source f' = Feature.source f
  ∧ Feature.batch_id f' = Feature.batch_id f.

(** ** Rounding to one decimal, by its meaning

    The value of a finite binary64 number as a fraction [(num, den)] with
    [0 < den]; none for an infinity or a NaN. *)
Definition float_fraction (x : spec_float) : option (Z * Z) :=
  match x with
  | S754_zero _ => Some (0, 1)
  | S754_finite s m e =>
      let n := if s then Z.neg m else Z.pos m in
      Some match e with
           | Z0 => (n, 1)
           | Z.pos _ => (n * 2 ^ e, 1)
           | Z.neg _ => (n, 2 ^ (- e))
           end
  | S754_infinity _ | S754_nan => None
  end.

(** [k] is the integer nearest to [num / den], the even one when two are
    equally near. *)
Definition nearest_even (num den k : Z) : Prop :=
  2 * Z.abs (num - k * den) ≤ den
  ∧ (2 * Z.abs (num - k * den) = den → Z.even k = true).

(** [r] is [x] rounded to one decimal: the binary64 quotient of [k] by 10,
    for the number [k] of tenths nearest to the value of [x], ties to the
    even one; an infinity or a NaN is left as it is. *)
Definition rounded_to_one_decimal (x r : spec_float) : Prop :=
  match float_fraction x with
  | Some (num, den) =>
      ∃ k, 0 < den
           ∧ nearest_even (10 * num) den k
           ∧ float_fraction (Float.of_int k) = Some (k, 1)
           ∧ r = SFdiv 53 1024 (Float.of_int k) (S754_finite false 10 0)
  | None => r = x
  end.

(** The percentage over the exact quotient: the double for [k / 10], [k]
    the number of tenths nearest to [100 * passing / total]. *)
Definition exactly_rounded (passing_count total : Z) (r : spec_float) : Prop :=
  ∃ k, nearest_even (1000 * passing_count) total k
       ∧ r = SFdiv 53 1024 (Float.of_int k) (S754_finite false 10 0).

(** ** Sample data *)

Definition row (i p : Z) (n : string) (b : bool) : Feature.t :=
  Feature.mk i p "core" n ("about " ++ n) ["do it"%string] b "initializer" None.

Definition db_abc : store :=
  [row 1 5 "A" false; row 2 2 "B" false; row 3 8 "C" true].

Definition db_wild : store :=
  [Feature.mk 1 1 "core" "abc" "xyz" ["do it"%string] false "initializer" None].

Definition item (n : string) : gmap string jval :=
  {[ "category"%string := JStr "core"; "name"%string := JStr n;
     "description"%string := JStr ("about " ++ n);
     "steps"%string := JList ["do it"%string] ]}.

Definition item_without_steps (n : string) : gmap string jval :=
  delete "steps"%string (item n).

Definition laravel_config : gmap string Client.json :=
  {[ "laravel-boost"%string :=
       Client.JObject
         {[ "command"%string := Client.JString "php";
            "args"%string :=
              Client.JArray [Client.JString "artisan"; Client.JString "boost:mcp"] ]} ]}.

Definition env_laravel : Client.environment :=
  Client.mk_environment "/usr/bin/python3" "/app" "/work/shop"
    "/work/shop/.claude_settings.json" (Client.Returns tt) true
    (Client.Returns (Client.JObject laravel_config)).


Definition env_plain : Client.environment :=
  Client.mk_environment "/usr/bin/python3" "/app" "/work/shop"
    "/work/shop/.claude_settings.json" (Client.Returns tt) false
    (Client.Raises Client.OSError).

(** Eighty features, the first twenty-three of them passing. *)
Definition db_23_of_80 : store :=
  (λ i : nat, row (Z.of_nat i) (Z.of_nat i) "f" (bool_decide (i ≤ 23)%nat))
  <$> seq 1 80.

Example get_next_abc :
  fst (feature_get_next db_abc) = Ok (Feature.to_dict (row 2 2 "B" false)).
Proof. vm_compute. reflexivity. Qed.

Example skip_abc :
  (feature_skip 2 db_abc).2
  = [row 1 5 "A" false; row 2 9 "B" false; row 3 8 "C" true].
Proof. vm_compute. reflexivity. Qed.

Example get_next_after_skip_abc :
  fst (feature_get_next (feature_skip 2 db_abc).2)
  = Ok (Feature.to_dict (row 1 5 "A" false)).
Proof. vm_compute. reflexivity. Qed.

Example create_abc :
  Feature.priority <$> (feature_create_bulk [item "D"; item "E"] "prepend" "enhancement" None db_abc).2
  = [5; 2; 8; 0; 1].
Proof. vm_compute. reflexivity. Qed.

Example create_abc_bad :
  feature_create_bulk [item "D"; item_without_steps "E"] "prepend" "enhancement" None db_abc
  = (Err (MissingFields 1), db_abc).
Proof. vm_compute. reflexivity. Qed.

(** ** Facts about the query builder *)

Section OrderBy.
Context {A : Type} (R : relation A) `{!RelDecision R, !Transitive R, !Total R}.

Lemma order_by_perm (q : list A) : Query.order_by R q ≡ₚ q.
Proof. apply merge_sort_Permutation. Qed.

Lemma order_by_elem_of (q : list A) (x : A) : x ∈ Query.order_by R q ↔ x ∈ q.
Proof. by rewrite order_by_perm. Qed.

Lemma order_by_sorted (q : list A) : StronglySorted R (Query.order_by R q).
Proof. apply StronglySorted_merge_sort; apply _. Qed.

Lemma order_by_length (q : list A) : length (Query.order_by R q) = length q.
Proof. by rewrite order_by_perm. Qed.

Lemma first_order_by_None (q : list A) :
  Query.first (Query.order_by R q) = None ↔ q = [].
Proof.
  unfold Query.first. rewrite head_None. split.
  - intros E. apply Permutation_nil_r. rewrite <- E. symmetry. apply order_by_perm.
  - intros ->. reflexivity.
Qed.

Lemma first_order_by_Some (q : list A) (x : A) :
  Query.first (Query.order_by R q) = Some x →
  x ∈ q ∧ ∀ y, y ∈ q → R x y.
Proof.
  unfold Query.first. intros E.
  destruct (Query.order_by R q) as [|x' l] eqn:Eq; simplify_eq/=.
  pose proof (order_by_sorted q) as Hs. rewrite Eq in Hs.
  apply StronglySorted_inv in Hs as [_ Hall].
  split.
  - apply order_by_elem_of. rewrite Eq. left.
  - intros y Hy. apply order_by_elem_of in Hy. rewrite Eq in Hy.
    apply elem_of_cons in Hy as [->|Hy].
    + destruct (total R x x); assumption.
    + rewrite Forall_forall in Hall. by apply Hall.
Qed.
End OrderBy.

#[global] Instance priority_id_asc_trans : Transitive priority_id_asc.
Proof. intros f g h. unfold priority_id_asc. lia. Qed.
#[global] Instance priority_id_asc_total : Total priority_id_asc.
Proof. intros f g. unfold priority_id_asc. lia. Qed.
#[global] Instance priority_asc_trans : Transitive priority_asc.
Proof. intros f g h. unfold priority_asc. lia. Qed.
#[global] Instance priority_asc_total : Total priority_asc.
Proof. intros f g. unfold priority_asc. lia. Qed.
#[global] Instance desc_trans : Transitive desc.
Proof. intros f g h. unfold desc. lia. Qed.
#[global] Instance desc_total : Total desc.
Proof. intros f g. unfold desc. lia. Qed.
#[global] Instance asc_trans : Transitive asc.
Proof. intros f g h. unfold asc. lia. Qed.
#[global] Instance asc_total : Total asc.
Proof. intros f g. unfold asc. lia. Qed.

Lemma filter_nil_forall {A} (P : A → Prop) `{!∀ x, Decision (P x)} (l : list A) :
  filter P l = [] ↔ ∀ x, x ∈ l → ¬ P x.
Proof.
  split.
  - intros E x Hx HP. by apply (filter_nil_not_elem_of P l x).
  - intros Hall. induction l as [|a l IH]; [done|].
    rewrite filter_cons_False by (apply Hall; left).
    apply IH. intros x Hx. apply Hall. by right.
Qed.

Lemma not_pending_passing (f : Feature.t) : ¬ pending f ↔ passing f.
Proof. unfold pending, passing. destruct (Feature.passes f); naive_solver. Qed.

Lemma filter_pending_nil (db : store) :
  filter pending db = [] ↔ ∀ g, g ∈ db → passing g.
Proof.
  rewrite filter_nil_forall.
  split; intros Hall g Hg; apply not_pending_passing; auto.
Qed.

(** ** feature_get_next *)

(** C1.  On every table [feature_get_next] answers with the pending
    feature that is least for (priority, id), or with the "no work" payload;
    the latter exactly when no pending feature is left; the call leaves the
    table as it was, so a second call gives the same answer. *)
Theorem get_next_spec (db : store) :
  match (feature_get_next db).1 with
  | Ok d =>
      ∃ f, f ∈ db ∧ Feature.passes f = false ∧ d = Feature.to_dict f
           ∧ ∀ g, g ∈ db → Feature.passes g = false →
                  Feature.priority f < Feature.priority g
                  ∨ (Feature.priority f = Feature.priority g
                     ∧ Feature.id f ≤ Feature.id g)
  | Err e => e = AllPassing
  end
  ∧ ((feature_get_next db).1 = Err AllPassing
     ↔ ∀ g, g ∈ db → Feature.passes g = true)
  ∧ (feature_get_next db).2 = db
  ∧ feature_get_next (feature_get_next db).2 = feature_get_next db.
Proof.
  unfold feature_get_next.
  destruct (Query.first (Query.order_by priority_id_asc (filter pending db)))
    as [f|] eqn:E; simpl.
  - pose proof E as E0.
    apply first_order_by_Some in E0 as [Hin Hmin]; [|apply _..].
    apply list_elem_of_filter in Hin as [Hp Hin].
    repeat split.
    + exists f. repeat split; try done.
      intros g Hg Hpg. apply (Hmin g). by apply list_elem_of_filter.
    + intros [=].
    + intros Hall. specialize (Hall f Hin). unfold pending in Hp. congruence.
    + by rewrite E.
  - apply first_order_by_None in E; [|apply _..].
    repeat split; try done.
    + intros _. by apply filter_pending_nil.
    + destruct (Query.first _) eqn:E'; [|done].
      apply first_order_by_Some in E' as [Hin _]; [|apply _..].
      rewrite E in Hin. by apply elem_of_nil in Hin.
Qed.

(** ** Lookups, updates and extreme priorities *)

(** The primary key of a table given row by row. *)
Ltac key_by_computation :=
  unfold primary_key; apply (bool_decide_unpack _); vm_compute; reflexivity.

Lemma primary_key_inj (db : store) (f g : Feature.t) :
  primary_key db → f ∈ db → g ∈ db → Feature.id f = Feature.id g → f = g.
Proof.
  unfold primary_key. induction db as [|a db IH]; intros Hnd Hf Hg E.
  - by apply elem_of_nil in Hf.
  - rewrite fmap_cons in Hnd. apply NoDup_cons in Hnd as [Hna Hnd].
    apply elem_of_cons in Hf as [->|Hf]; apply elem_of_cons in Hg as [->|Hg].
    + done.
    + exfalso. apply Hna. rewrite E. by apply list_elem_of_fmap_2.
    + exfalso. apply Hna. rewrite <- E. by apply list_elem_of_fmap_2.
    + by apply IH.
Qed.

Lemma get_Some (feature_id : Z) (db : store) (f : Feature.t) :
  get feature_id db = Some f → f ∈ db ∧ Feature.id f = feature_id.
Proof.
  unfold get, Query.first. intros E. apply head_Some_elem_of in E.
  apply list_elem_of_filter in E. tauto.
Qed.

Lemma get_None (feature_id : Z) (db : store) :
  get feature_id db = None ↔ ∀ f, f ∈ db → Feature.id f ≠ feature_id.
Proof. unfold get, Query.first. rewrite head_None. apply filter_nil_forall. Qed.

Lemma get_elem_of (feature_id : Z) (db : store) (f : Feature.t) :
  primary_key db → f ∈ db → Feature.id f = feature_id →
  get feature_id db = Some f.
Proof.
  intros Hkey Hf Hid. destruct (get feature_id db) as [g|] eqn:E.
  - apply get_Some in E as [Hg Hgid]. f_equal.
    apply (primary_key_inj db); congruence.
  - rewrite get_None in E. by destruct (E f Hf).
Qed.

Lemma get_update_where (x : Z) (upd : Feature.t → Feature.t) (db : store) :
  (∀ g, Feature.id (upd g) = Feature.id g) →
  get x (update_where x upd db) = upd <$> get x db.
Proof.
  intros Hupd. unfold get, update_where, Query.first.
  induction db as [|a db IH]; [done|].
  rewrite fmap_cons. destruct (decide (Feature.id a = x)) as [E|E].
  - rewrite !filter_cons_True; [done|done|by rewrite Hupd].
  - rewrite !filter_cons_False; done.
Qed.

Lemma max_priority_result_Some (db : store) (m : Z) :
  max_priority_result db = Some m → is_max_priority db m.
Proof.
  unfold max_priority_result. intros E.
  apply first_order_by_Some in E as [Hin Hmax]; [|apply _..].
  apply list_elem_of_fmap in Hin as (g & -> & Hg). split; [by exists g|].
  intros g' Hg'. apply (Hmax (Feature.priority g')). by apply list_elem_of_fmap_2.
Qed.

Lemma max_priority_result_None (db : store) :
  max_priority_result db = None ↔ db = [].
Proof.
  unfold max_priority_result. rewrite first_order_by_None; [|apply _..].
  split; [apply fmap_nil_inv|by intros ->].
Qed.

Lemma is_max_priority_unique (db : store) (m m' : Z) :
  is_max_priority db m → is_max_priority db m' → m = m'.
Proof.
  intros [(g & Hg & <-) Hm] [(g' & Hg' & <-) Hm'].
  specialize (Hm g' Hg'). specialize (Hm' g Hg). lia.
Qed.

Lemma min_pending_Some (db : store) (p : Z) :
  min_pending db = Some p → is_min_pending db p.
Proof.
  unfold min_pending. intros E.
  apply first_order_by_Some in E as [Hin Hmin]; [|apply _..].
  apply list_elem_of_fmap in Hin as (g & -> & Hg).
  apply list_elem_of_filter in Hg as [Hp Hg]. split; [by exists g|].
  intros g' Hg' Hp'. apply (Hmin (Feature.priority g')).
  apply list_elem_of_fmap_2. by apply list_elem_of_filter.
Qed.

Lemma min_pending_None (db : store) :
  min_pending db = None ↔ ∀ g, g ∈ db → Feature.passes g = true.
Proof.
  unfold min_pending. rewrite first_order_by_None; [|apply _..].
  rewrite <- filter_pending_nil. split; [apply fmap_nil_inv|by intros ->].
Qed.

Lemma is_min_pending_unique (db : store) (p p' : Z) :
  is_min_pending db p → is_min_pending db p' → p = p'.
Proof.
  intros [(g & Hg & Hgp & <-) Hm] [(g' & Hg' & Hgp' & <-) Hm'].
  specialize (Hm g' Hg' Hgp'). specialize (Hm' g Hg Hgp). lia.
Qed.

(** ** feature_skip *)

(** C2.  [feature_skip] answers NotFound when no row has the identifier
    and leaves the table alone; it answers InvalidState for a passing
    feature and leaves the table alone; for a pending feature it moves the
    feature to one more than the largest priority of the whole table,
    reports id, name, old and new priority, and changes nothing else. *)
Theorem skip_spec (feature_id : Z) (db : store) (Hkey : primary_key db) :
  ((∀ f, f ∈ db → Feature.id f ≠ feature_id) →
     feature_skip feature_id db = (Err (NotFound feature_id), db))
  ∧ (∀ f, f ∈ db → Feature.id f = feature_id → Feature.passes f = true →
     feature_skip feature_id db = (Err AlreadyPassing, db))
  ∧ (∀ f, f ∈ db → Feature.id f = feature_id → Feature.passes f = false →
     ∃ m r,
       is_max_priority db m
       ∧ (feature_skip feature_id db).1 = Ok r
       ∧ sk_id r = feature_id
       ∧ sk_name r = Feature.name f
       ∧ sk_old_priority r = Feature.priority f
       ∧ sk_new_priority r = 1 + m
       ∧ (feature_skip feature_id db).2
         = (λ g, if decide (Feature.id g = feature_id)
                 then Feature.mk (Feature.id g) (1 + m) (Feature.category g)
                        (Feature.name g) (Feature.description g) (Feature.steps g)
                        (Feature.passes g) (Feature.source g) (Feature.batch_id g)
                 else g) <$> db).
Proof.
  unfold feature_skip. split; [|split].
  - intros Habs. apply get_None in Habs. by rewrite Habs.
  - intros f Hf Hid Hp. rewrite (get_elem_of feature_id db f) by done.
    by rewrite Hp.
  - intros f Hf Hid Hp. rewrite (get_elem_of feature_id db f) by done.
    rewrite Hp. destruct (max_priority_result db) as [m|] eqn:Em.
    + apply max_priority_result_Some in Em.
      exists m. eexists. split; [done|]. simpl. split; [reflexivity|].
      unfold refresh. simpl. rewrite get_update_where by done.
      rewrite Hid, (get_elem_of feature_id db f) by done. simpl.
      split; [done|]. split; [done|]. split; [done|]. split; [lia|].
      unfold update_where, Feature.set_priority.
      by replace (m + 1) with (1 + m) by lia.
    + apply max_priority_result_None in Em. subst db.
      by apply elem_of_nil in Hf.
Qed.

Lemma skip_spec_witness :
  primary_key db_abc
  ∧ ∃ m r, is_max_priority db_abc m
           ∧ (feature_skip 2 db_abc).1 = Ok r
           ∧ sk_new_priority r = 1 + m.
Proof.
  assert (Hkey : primary_key db_abc) by key_by_computation.
  split; [exact Hkey|].
  destruct (skip_spec 2 db_abc Hkey) as (_ & _ & Hskip).
  destruct (Hskip (row 2 2 "B" false)) as (m & r & Hm & Hr & _ & _ & _ & Hnew & _).
  - right. left.
  - reflexivity.
  - reflexivity.
  - exists m, r. auto.
Defined.

(** ** feature_mark_passing *)

(** C6.  [feature_mark_passing] answers NotFound when no row has the
    identifier; otherwise it sets [passes] and answers with the updated
    record, and a second call on the same identifier succeeds with the same
    answer. *)
Theorem mark_passing_spec (feature_id : Z) (db : store) (Hkey : primary_key db) :
  ((∀ f, f ∈ db → Feature.id f ≠ feature_id) →
     feature_mark_passing feature_id db = (Err (NotFound feature_id), db))
  ∧ (∀ f, f ∈ db → Feature.id f = feature_id →
     ∃ d db',
       feature_mark_passing feature_id db = (Ok d, db')
       ∧ Feature.d_passes d = true
       ∧ d = Feature.to_dict
               (Feature.mk (Feature.id f) (Feature.priority f) (Feature.category f)
                  (Feature.name f) (Feature.description f) (Feature.steps f)
                  true (Feature.source f) (Feature.batch_id f))
       ∧ db' = (λ g, if decide (Feature.id g = feature_id)
                     then Feature.mk (Feature.id g) (Feature.priority g)
                            (Feature.category g) (Feature.name g)
                            (Feature.description g) (Feature.steps g)
                            true (Feature.source g) (Feature.batch_id g)
                     else g) <$> db
       ∧ feature_mark_passing feature_id db' = (Ok d, db')).
Proof.
  split.
  - intros Habs. unfold feature_mark_passing. apply get_None in Habs.
    by rewrite Habs.
  - intros f Hf Hid.
    assert (Hget : get feature_id db = Some f) by by apply get_elem_of.
    assert (Hget' : get feature_id (update_where feature_id (Feature.set_passes true) db)
                    = Some (Feature.set_passes true f)).
    { rewrite get_update_where by done. by rewrite Hget. }
    assert (Hidem : update_where feature_id (Feature.set_passes true)
                      (update_where feature_id (Feature.set_passes true) db)
                    = update_where feature_id (Feature.set_passes true) db).
    { unfold update_where. rewrite <- list_fmap_compose. apply list_fmap_ext.
      intros i g _. simpl. destruct (decide (Feature.id g = feature_id)) as [E|E].
      - simpl. by rewrite decide_True.
      - by rewrite decide_False. }
    eexists _, _. split; [|split; [|split; [|split]]].
    + unfold feature_mark_passing. rewrite Hget. simpl. rewrite Hid.
      unfold refresh. simpl. rewrite Hid, Hget'. simpl. reflexivity.
    + reflexivity.
    + reflexivity.
    + reflexivity.
    + unfold feature_mark_passing. rewrite Hget'. simpl. rewrite Hid, Hidem.
      unfold refresh. simpl. rewrite Hid, Hget'. reflexivity.
Qed.

Lemma mark_passing_spec_witness :
  primary_key db_abc
  ∧ ∃ d db', feature_mark_passing 1 db_abc = (Ok d, db')
             ∧ Feature.d_passes d = true
             ∧ feature_mark_passing 1 db' = (Ok d, db').
Proof.
  assert (Hkey : primary_key db_abc) by key_by_computation.
  split; [exact Hkey|].
  destruct (mark_passing_spec 1 db_abc Hkey) as [_ Hmark].
  destruct (Hmark (row 1 5 "A" false)) as (d & db' & H1 & H2 & _ & _ & H3).
  - left.
  - reflexivity.
  - exists d, db'. auto.
Defined.

(** ** feature_create_bulk: validation, the session and the flush *)

Lemma has_required_false (feature_data : gmap string jval) :
  has_required feature_data = false ↔ lacks_key feature_data.
Proof.
  unfold has_required, lacks_key, required_keys. split.
  - intros E.
    destruct (feature_data !! "category"%string) eqn:E1;
      [|exists "category"%string; split; [set_solver|done]].
    destruct (feature_data !! "name"%string) eqn:E2;
      [|exists "name"%string; split; [set_solver|done]].
    destruct (feature_data !! "description"%string) eqn:E3;
      [|exists "description"%string; split; [set_solver|done]].
    destruct (feature_data !! "steps"%string) eqn:E4;
      [|exists "steps"%string; split; [set_solver|done]].
    simpl in E. rewrite E1, E2, E3, E4 in E.
    rewrite !bool_decide_eq_true_2 in E by eauto. done.
  - intros (key & Hin & Hk).
    assert (Hno : bool_decide (is_Some (feature_data !! key)) = false).
    { apply bool_decide_eq_false. rewrite Hk. by intros [? ?]. }
    set_unfold in Hin. simpl.
    destruct Hin as [->|[->|[->|[->|[]]]]]; rewrite Hno;
      rewrite ?andb_false_r, ?andb_false_l; reflexivity.
Qed.

Lemma well_formed_has_required (feature_data : gmap string jval) :
  well_formed feature_data → has_required feature_data = true.
Proof.
  intros (c & n & d & st & Hc & Hn & Hd & Hst).
  destruct (has_required feature_data) eqn:E; [done|].
  apply has_required_false in E as (key & Hin & Hk).
  unfold required_keys in Hin. set_unfold in Hin.
  destruct Hin as [->|[->|[->|[->|[]]]]]; congruence.
Qed.

Section Loop.
Context (sp : Z) (src : string) (b : option string).

Lemma add_features_ok (features : list (gmap string jval)) :
  ∀ (i : nat) (added : list new_feature) (cc : Z),
    Forall (λ fd, has_required fd = true) features →
    add_features sp src b i features added cc
    = Ok (added ++ imap (λ k fd, db_feature sp src b (i + k) fd) features,
          cc + Z.of_nat (length features)).
Proof.
  induction features as [|fd features IH]; intros i added cc Hall.
  - simpl. rewrite app_nil_r. do 2 f_equal. lia.
  - apply Forall_cons in Hall as [Hfd Hall]. simpl. rewrite Hfd. simpl.
    rewrite IH by done. rewrite <- app_assoc. simpl.
    rewrite Nat.add_0_r, Nat2Z.inj_succ.
    replace (cc + 1 + Z.of_nat (length features))
      with (cc + Z.succ (Z.of_nat (length features))) by lia.
    do 4 f_equal. apply imap_ext. intros k x _. unfold compose. f_equal. lia.
Qed.

Lemma add_features_missing (pre : list (gmap string jval)) :
  ∀ (i : nat) (added : list new_feature) (cc : Z) bad post,
    Forall (λ fd, has_required fd = true) pre →
    has_required bad = false →
    add_features sp src b i (pre ++ bad :: post) added cc
    = Err (MissingFields (i + length pre)).
Proof.
  induction pre as [|fd pre IH]; intros i added cc bad post Hall Hbad.
  - simpl. rewrite Hbad. simpl. by rewrite Nat.add_0_r.
  - apply Forall_cons in Hall as [Hfd Hall]. simpl. rewrite Hfd. simpl.
    rewrite IH by done. do 2 f_equal. lia.
Qed.
End Loop.

Lemma foldr_max_nonneg (l : list Z) : 0 ≤ foldr Z.max 0 l.
Proof. induction l; simpl; lia. Qed.

Lemma foldr_max_init (a : Z) (l : list Z) :
  0 ≤ a → foldr Z.max a l = Z.max a (foldr Z.max 0 l).
Proof. intros Ha. induction l as [|x l IH]; simpl; lia. Qed.

Lemma next_id_gt (db : store) (f : Feature.t) : f ∈ db → Feature.id f < next_id db.
Proof.
  unfold next_id. induction db as [|a db IH]; intros Hf.
  - by apply elem_of_nil in Hf.
  - rewrite fmap_cons. simpl foldr.
    apply elem_of_cons in Hf as [->|Hf]; [lia|].
    specialize (IH Hf). lia.
Qed.

Lemma next_id_snoc (db : store) (r : Feature.t) :
  Feature.id r = next_id db → next_id (db ++ [r]) = next_id db + 1.
Proof.
  intros E. unfold next_id in *. rewrite fmap_app, foldr_app. simpl. rewrite E.
  pose proof (foldr_max_nonneg (Feature.id <$> db)).
  rewrite foldr_max_init by lia. lia.
Qed.

Lemma to_row_Some (new_id : Z) (o : new_feature) (r : Feature.t) :
  to_row new_id o = Some r →
  Feature.id r = new_id ∧ Feature.priority r = n_priority o
  ∧ Feature.passes r = n_passes o ∧ Feature.source r = n_source o
  ∧ Feature.batch_id r = n_batch_id o
  ∧ n_category o = JStr (Feature.category r) ∧ n_name o = JStr (Feature.name r)
  ∧ n_description o = JStr (Feature.description r)
  ∧ n_steps o = JList (Feature.steps r).
Proof.
  unfold to_row. intros E.
  destruct (n_category o) as [c|]; [|done].
  destruct (n_name o) as [n|]; [|done].
  destruct (n_description o) as [d|]; [|done].
  destruct (n_steps o) as [|st]; [done|].
  simpl in E. by simplify_eq.
Qed.

Lemma flush_rows_of (added : list new_feature) :
  ∀ db : store, flush added db = (λ rows, db ++ rows) <$> rows_of (next_id db) added.
Proof.
  induction added as [|o added IH]; intros db; simpl.
  - by rewrite app_nil_r.
  - unfold insert_row. destruct (to_row (next_id db) o) as [r|] eqn:Er; [|done].
    simpl. rewrite IH.
    rewrite next_id_snoc by (by apply to_row_Some in Er as [-> _]).
    destruct (rows_of (next_id db + 1) added) as [rs|]; [|done].
    simpl. by rewrite <- app_assoc.
Qed.

Lemma rows_of_well_formed (sp : Z) (src : string) (b : option string)
    (features : list (gmap string jval)) :
  ∀ (first_id : Z) (i : nat),
    Forall well_formed features →
    ∃ rows,
      rows_of first_id (imap (λ k fd, db_feature sp src b (i + k) fd) features)
      = Some rows
      ∧ length rows = length features
      ∧ ∀ (k : nat) fd, features !! k = Some fd →
          ∃ f, rows !! k = Some f
               ∧ Feature.id f = first_id + Z.of_nat k
               ∧ Feature.priority f = sp + Z.of_nat (i + k)
               ∧ Feature.passes f = false
               ∧ Feature.source f = src
               ∧ Feature.batch_id f = b
               ∧ created_from fd f.
Proof.
  induction features as [|fd features IH]; intros first_id i Hall.
  - exists []. repeat split. intros k fd' Hk. by rewrite lookup_nil in Hk.
  - apply Forall_cons in Hall as [Hfd Hall].
    destruct (IH (first_id + 1) (S i) Hall) as (rs & Ers & Hlen & Hrs).
    destruct Hfd as (c & n & d & st & Hc & Hn & Hd & Hst).
    exists (Feature.mk first_id (sp + Z.of_nat (i + 0)) c n d st false src b :: rs).
    split; [|split].
    + simpl. unfold to_row, db_feature at 1. simpl.
      rewrite !lookup_total_alt, Hc, Hn, Hd, Hst. simpl.
      rewrite (imap_ext _ (λ k fd, db_feature sp src b (S i + k) fd))
        by (intros k x _; unfold compose, db_feature; f_equal; lia).
      by rewrite Ers.
    + simpl. by rewrite Hlen.
    + intros [|k] fd' Hk; simpl in Hk.
      * simplify_eq. eexists. split; [reflexivity|]. simpl.
        repeat split; try done. lia.
      * destruct (Hrs k fd' Hk) as (f & Hf & Hid & Hpr & Hrest).
        exists f. split; [done|]. split; [lia|]. split; [|done].
        rewrite Hpr. f_equal. lia.
Qed.

Lemma create_bulk_ok (features : list (gmap string jval))
    (priority_mode source : string) (batch_id : option string) (db : store) :
  Forall well_formed features →
  ∃ new,
    feature_create_bulk features priority_mode source batch_id db
    = (Ok (mk_created (Z.of_nat (length features)) priority_mode
             (start_priority priority_mode features db) source batch_id),
       db ++ new)
    ∧ length new = length features
    ∧ ∀ (k : nat) fd, features !! k = Some fd →
        ∃ f, new !! k = Some f
             ∧ Feature.id f = next_id db + Z.of_nat k
             ∧ Feature.priority f
               = start_priority priority_mode features db + Z.of_nat k
             ∧ Feature.passes f = false
             ∧ Feature.source f = source
             ∧ Feature.batch_id f = batch_id
             ∧ created_from fd f.
Proof.
  intros Hwf. unfold feature_create_bulk. cbv zeta.
  rewrite add_features_ok
    by (eapply Forall_impl; [exact Hwf|apply well_formed_has_required]).
  rewrite app_nil_l, flush_rows_of.
  destruct (rows_of_well_formed (start_priority priority_mode features db)
              source batch_id features (next_id db) 0 Hwf)
    as (rows & Erows & Hlen & Hrows).
  rewrite Erows. simpl. exists rows. split; [done|]. split; [done|].
  intros k fd Hk. destruct (Hrows k fd Hk) as (f & Hf & Hrest).
  exists f. split; [done|]. by rewrite Nat.add_0_l in Hrest.
Qed.

Lemma start_priority_append (priority_mode : string)
    (features : list (gmap string jval)) (db : store) :
  priority_mode ≠ "prepend"%string →
  (db = [] → start_priority priority_mode features db = 1)
  ∧ ∀ M, is_max_priority db M → start_priority priority_mode features db = M + 1.
Proof.
  intros Hmode. unfold start_priority. rewrite decide_False by done.
  destruct (max_priority_result db) as [m|] eqn:Em.
  - apply max_priority_result_Some in Em. split.
    + intros ->. destruct Em as [(g & Hg & _) _]. by apply elem_of_nil in Hg.
    + intros M HM. f_equal. by apply (is_max_priority_unique db).
  - apply max_priority_result_None in Em. subst db. split; [done|].
    intros M [(g & Hg & _) _]. by apply elem_of_nil in Hg.
Qed.

Lemma start_priority_prepend (features : list (gmap string jval)) (db : store) (P : Z) :
  is_min_pending db P →
  start_priority "prepend" features db = P - Z.of_nat (length features).
Proof.
  intros HP. unfold start_priority. rewrite decide_True by done.
  destruct (min_pending db) as [p|] eqn:Ep.
  - apply min_pending_Some in Ep. f_equal. by apply (is_min_pending_unique db).
  - rewrite min_pending_None in Ep. destruct HP as [(g & Hg & Hgp & _) _].
    specialize (Ep g Hg). congruence.
Qed.

Lemma start_priority_prepend_none (priority_mode : string)
    (features : list (gmap string jval)) (db : store) :
  (∀ g, g ∈ db → Feature.passes g = true) →
  priority_mode ≠ "prepend"%string →
  start_priority "prepend" features db = start_priority priority_mode features db.
Proof.
  intros Hnone Hmode. unfold start_priority.
  rewrite decide_True, decide_False by done.
  apply min_pending_None in Hnone. by rewrite Hnone.
Qed.

Lemma first_missing (features : list (gmap string jval)) :
  ∀ (i : nat) fd,
    features !! i = Some fd → has_required fd = false →
    ∃ pre bad post,
      features = pre ++ bad :: post
      ∧ Forall (λ fd, has_required fd = true) pre
      ∧ has_required bad = false
      ∧ (length pre ≤ i)%nat.
Proof.
  induction features as [|x features IH]; intros i fd Hi Hfd.
  - by rewrite lookup_nil in Hi.
  - destruct (has_required x) eqn:Ex.
    + destruct i as [|i]; simpl in Hi; [simplify_eq; congruence|].
      destruct (IH i fd Hi Hfd) as (pre & bad & post & -> & Hpre & Hbad & Hlen).
      exists (x :: pre), bad, post. repeat split; simpl; [by constructor|done|lia].
    + exists [], x, features. repeat split; simpl; [by constructor|done|lia].
Qed.

(** C5.  In append mode [K] well-formed items are created with the
    priorities [M + 1 .. M + K] in the order of the input, [M] being the
    largest priority of the table, the first priority being 1 on an empty
    table; every created feature is pending. *)
Theorem create_bulk_append (features : list (gmap string jval)) (source : string)
    (batch_id : option string) (db : store)
    (Hwf : Forall well_formed features) :
  ∃ start new,
    feature_create_bulk features "append" source batch_id db
    = (Ok (mk_created (Z.of_nat (length features)) "append" start source batch_id),
       db ++ new)
    ∧ (db = [] → start = 1)
    ∧ (∀ M, is_max_priority db M → start = M + 1)
    ∧ length new = length features
    ∧ ∀ (k : nat) fd, features !! k = Some fd →
        ∃ f, new !! k = Some f
             ∧ Feature.priority f = start + Z.of_nat k
             ∧ Feature.passes f = false
             ∧ created_from fd f.
Proof.
  destruct (create_bulk_ok features "append" source batch_id db Hwf)
    as (new & Heq & Hlen & Hnew).
  destruct (start_priority_append "append" features db) as [Hempty Hmax]; [done|].
  exists (start_priority "append" features db), new.
  repeat split; try done.
  intros k fd Hk. destruct (Hnew k fd Hk) as (f & Hf & _ & Hp & Hpass & _ & _ & Hcf).
  by exists f.
Qed.

Lemma create_bulk_append_witness :
  Forall well_formed [item "D"; item "E"]
  ∧ ∃ start new,
      feature_create_bulk [item "D"; item "E"] "append" "initializer" None db_abc
      = (Ok (mk_created 2 "append" start "initializer" None), db_abc ++ new)
      ∧ length new = 2%nat.
Proof.
  assert (Hwf : Forall well_formed [item "D"; item "E"]).
  { repeat constructor; eexists _, _, _, _; repeat split; vm_compute; reflexivity. }
  split; [exact Hwf|].
  destruct (create_bulk_append [item "D"; item "E"] "initializer" None db_abc Hwf)
    as (start & new & Heq & _ & _ & Hlen & _).
  exists start, new. split; [exact Heq|exact Hlen].
Defined.

(** C3.  In prepend mode with a pending feature, [P] being the smallest
    pending priority, [K] well-formed items are created with the priorities
    [P - K .. P - 1] in the order of the input, each below every pending
    feature that was there; with no pending feature the call does what
    append mode does. *)
Theorem create_bulk_prepend (features : list (gmap string jval)) (source : string)
    (batch_id : option string) (db : store)
    (Hwf : Forall well_formed features) :
  (∀ P, is_min_pending db P →
     ∃ new,
       feature_create_bulk features "prepend" source batch_id db
       = (Ok (mk_created (Z.of_nat (length features)) "prepend"
                (P - Z.of_nat (length features)) source batch_id),
          db ++ new)
       ∧ length new = length features
       ∧ (∀ (k : nat) fd, features !! k = Some fd →
            ∃ f, new !! k = Some f
                 ∧ Feature.priority f = P - Z.of_nat (length features) + Z.of_nat k
                 ∧ Feature.passes f = false
                 ∧ created_from fd f)
       ∧ ∀ f g, f ∈ new → g ∈ db → Feature.passes g = false →
                Feature.priority f < Feature.priority g)
  ∧ ((∀ g, g ∈ db → Feature.passes g = true) →
     ∃ r db',
       feature_create_bulk features "append" source batch_id db = (Ok r, db')
       ∧ feature_create_bulk features "prepend" source batch_id db
         = (Ok (mk_created (cr_created r) "prepend" (cr_start_priority r)
                  (cr_source r) (cr_batch_id r)),
            db')).
Proof.
  split.
  - intros P HP.
    destruct (create_bulk_ok features "prepend" source batch_id db Hwf)
      as (new & Heq & Hlen & Hnew).
    rewrite (start_priority_prepend features db P HP) in Heq, Hnew.
    exists new. split; [done|]. split; [done|]. split.
    + intros k fd Hk.
      destruct (Hnew k fd Hk) as (f & Hf & _ & Hp & Hpass & _ & _ & Hcf).
      by exists f.
    + intros f g Hf Hg Hpg.
      apply list_elem_of_lookup in Hf as [k Hk].
      pose proof (lookup_lt_Some _ _ _ Hk) as Hlt. rewrite Hlen in Hlt.
      destruct (lookup_lt_is_Some_2 features k Hlt) as [fd Hfd].
      destruct (Hnew k fd Hfd) as (f' & Hf' & _ & Hp & _).
      assert (f' = f) as -> by congruence.
      destruct HP as [_ Hmin]. specialize (Hmin g Hg Hpg). lia.
  - intros Hnone.
    destruct (create_bulk_ok features "append" source batch_id db Hwf)
      as (new & Heq & Hlen & Hnew).
    destruct (create_bulk_ok features "prepend" source batch_id db Hwf)
      as (new' & Heq' & Hlen' & Hnew').
    rewrite (start_priority_prepend_none "append") in Heq', Hnew' by done.
    assert (new' = new) as ->.
    { apply list_eq. intros k. destruct (features !! k) as [fd|] eqn:Hk.
      - destruct (Hnew k fd Hk) as (f & Hf & Hid & Hp & Hpass & Hs & Hb & Hcf).
        destruct (Hnew' k fd Hk) as (f' & Hf' & Hid' & Hp' & Hpass' & Hs' & Hb' & Hcf').
        rewrite Hf, Hf'. f_equal.
        destruct Hcf as (H1 & H2 & H3 & H4), Hcf' as (H1' & H2' & H3' & H4').
        destruct f, f'; simpl in *. simplify_eq. reflexivity.
      - apply lookup_ge_None in Hk.
        rewrite !(proj2 (lookup_ge_None _ _)) by lia. reflexivity. }
    eexists _, _. split; [exact Heq|]. exact Heq'.
Qed.

Lemma create_bulk_prepend_witness :
  Forall well_formed [item "D"; item "E"]
  ∧ is_min_pending db_abc 2
  ∧ ∃ new,
      feature_create_bulk [item "D"; item "E"] "prepend" "enhancement" None db_abc
      = (Ok (mk_created 2 "prepend" 0 "enhancement" None), db_abc ++ new)
      ∧ ∀ f g, f ∈ new → g ∈ db_abc → Feature.passes g = false →
               Feature.priority f < Feature.priority g.
Proof.
  assert (Hwf : Forall well_formed [item "D"; item "E"]).
  { repeat constructor; eexists _, _, _, _; repeat split; vm_compute; reflexivity. }
  assert (Hmin : is_min_pending db_abc 2).
  { apply min_pending_Some. vm_compute. reflexivity. }
  split; [exact Hwf|]. split; [exact Hmin|].
  destruct (create_bulk_prepend [item "D"; item "E"] "enhancement" None db_abc Hwf)
    as [Hpre _].
  destruct (Hpre 2 Hmin) as (new & Heq & _ & _ & Hlt).
  exists new. split; [exact Heq|exact Hlt].
Defined.

(** C4.  When some item lacks one of the keys category, name,
    description, steps, the call fails with the index of the first such
    item (the index [i] itself when no earlier item lacks a key), nothing is
    created and the table is what it was before the call. *)
Theorem create_bulk_missing_field (features : list (gmap string jval))
    (priority_mode source : string) (batch_id : option string) (db : store)
    (i : nat) (fd : gmap string jval)
    (Hi : features !! i = Some fd) (Hlack : lacks_key fd) :
  ((∀ (k : nat) fd', (k < i)%nat → features !! k = Some fd' → ¬ lacks_key fd') →
     feature_create_bulk features priority_mode source batch_id db
     = (Err (MissingFields i), db))
  ∧ ∃ (j : nat) fd',
      (j ≤ i)%nat ∧ features !! j = Some fd' ∧ lacks_key fd'
      ∧ feature_create_bulk features priority_mode source batch_id db
        = (Err (MissingFields j), db).
Proof.
  apply has_required_false in Hlack.
  destruct (first_missing features i fd Hi Hlack)
    as (pre & bad & post & -> & Hpre & Hbad & Hlen).
  assert (Hcall : feature_create_bulk (pre ++ bad :: post) priority_mode source
                    batch_id db = (Err (MissingFields (length pre)), db)).
  { unfold feature_create_bulk. cbv zeta.
    by rewrite add_features_missing, Nat.add_0_l. }
  assert (Hat : (pre ++ bad :: post) !! length pre = Some bad).
  { by rewrite list_lookup_middle. }
  split.
  - intros Hbefore. destruct (decide (length pre = i)) as [<-|Hne]; [done|].
    destruct (Hbefore (length pre) bad); [lia|done|].
    by apply has_required_false.
  - exists (length pre), bad. repeat split; try done.
    by apply has_required_false.
Qed.

Lemma create_bulk_missing_field_witness :
  [item "D"; item_without_steps "E"] !! 1%nat = Some (item_without_steps "E")
  ∧ lacks_key (item_without_steps "E")
  ∧ feature_create_bulk [item "D"; item_without_steps "E"] "prepend" "enhancement"
      None db_abc
    = (Err (MissingFields 1), db_abc).
Proof.
  assert (Hlack : lacks_key (item_without_steps "E")).
  { exists "steps"%string. split; [set_solver|]. vm_compute. reflexivity. }
  split; [reflexivity|]. split; [exact Hlack|].
  apply (create_bulk_missing_field [item "D"; item_without_steps "E"]
           "prepend" "enhancement" None db_abc 1 (item_without_steps "E")
           eq_refl Hlack).
  intros [|k] fd' Hk Hfd'; [|lia].
  simpl in Hfd'. injection Hfd' as <-.
  intros Hl. apply has_required_false in Hl. vm_compute in Hl. discriminate.
Defined.


(** ** Passing is terminal *)

Lemma update_where_ids (x : Z) (upd : Feature.t → Feature.t) (db : store) :
  (∀ g, Feature.id (upd g) = Feature.id g) →
  Feature.id <$> update_where x upd db = Feature.id <$> db.
Proof.
  intros Hupd. unfold update_where. rewrite <- list_fmap_compose.
  apply list_fmap_ext. intros i g _. simpl. by destruct (decide _).
Qed.

Lemma update_where_keeps (x : Z) (upd : Feature.t → Feature.t) (db : store)
    (f : Feature.t) :
  f ∈ db → (Feature.id f = x → upd f = f) → f ∈ update_where x upd db.
Proof.
  intros Hf Hupd. unfold update_where. apply list_elem_of_fmap.
  exists f. split; [|done].
  destruct (decide (Feature.id f = x)); [symmetry; auto|done].
Qed.

Lemma set_passes_passing (f : Feature.t) :
  Feature.passes f = true → Feature.set_passes true f = f.
Proof. destruct f. simpl. by intros ->. Qed.

Lemma insert_row_primary_key (o : new_feature) (db db' : store) :
  insert_row o db = Some db' → primary_key db → primary_key db'.
Proof.
  unfold insert_row, primary_key. intros E Hkey.
  destruct (to_row (next_id db) o) as [r|] eqn:Er; simplify_eq/=.
  apply to_row_Some in Er as [Hid _].
  rewrite fmap_app. apply NoDup_app. split; [done|]. split.
  - intros x Hx Hx'. apply list_elem_of_fmap in Hx as (g & -> & Hg).
    apply next_id_gt in Hg. simpl in Hx'.
    apply list_elem_of_singleton in Hx'. lia.
  - apply NoDup_singleton.
Qed.

Lemma insert_row_prefix (o : new_feature) (db db' : store) :
  insert_row o db = Some db' → ∀ f, f ∈ db → f ∈ db'.
Proof.
  unfold insert_row. intros E f Hf.
  destruct (to_row (next_id db) o) as [r|]; simplify_eq/=.
  apply elem_of_app. by left.
Qed.

Lemma flush_primary_key (added : list new_feature) :
  ∀ db db', flush added db = Some db' → primary_key db → primary_key db'.
Proof.
  induction added as [|o added IH]; intros db db' E Hkey; simpl in E.
  - by simplify_eq.
  - destruct (insert_row o db) as [db1|] eqn:E1; [|done]. simpl in E.
    eapply IH; [done|]. by eapply insert_row_primary_key.
Qed.

Lemma flush_prefix (added : list new_feature) :
  ∀ db db', flush added db = Some db' → ∀ f, f ∈ db → f ∈ db'.
Proof.
  induction added as [|o added IH]; intros db db' E f Hf; simpl in E.
  - by simplify_eq.
  - destruct (insert_row o db) as [db1|] eqn:E1; [|done]. simpl in E.
    eapply IH; [done|]. by eapply insert_row_prefix.
Qed.

Lemma exec_preserves (o : op) (db : store) :
  primary_key db →
  primary_key (exec o db).2
  ∧ ∀ f, f ∈ db → Feature.passes f = true → f ∈ (exec o db).2.
Proof.
  intros Hkey. destruct o; simpl; try done.
  - unfold feature_get_next. by destruct (Query.first _).
  - unfold feature_mark_passing.
    destruct (get feature_id db) as [g|] eqn:Eg; simpl; [|done].
    apply get_Some in Eg as [Hg Hid]. split.
    + unfold primary_key. by rewrite update_where_ids.
    + intros f Hf Hp. apply update_where_keeps; [done|].
      intros _. by apply set_passes_passing.
  - unfold feature_skip.
    destruct (get feature_id db) as [g|] eqn:Eg; simpl; [|done].
    apply get_Some in Eg as [Hg Hid].
    destruct (Feature.passes g) eqn:Hpg; simpl; [done|]. split.
    + unfold primary_key. by rewrite update_where_ids.
    + intros f Hf Hp. apply update_where_keeps; [done|].
      intros Hfid. assert (f = g) as -> by by apply (primary_key_inj db).
      congruence.
  - unfold feature_create_bulk. cbv zeta.
    destruct (add_features _ _ _ _ _ _ _) as [[added cc]|e]; simpl; [|done].
    destruct (flush added db) as [db'|] eqn:Efl; simpl; [|done]. split.
    + by eapply flush_primary_key.
    + intros f Hf _. by eapply flush_prefix.
Qed.

Lemma run_preserves (ops : list op) :
  ∀ db, primary_key db →
    primary_key (run ops db)
    ∧ ∀ f, f ∈ db → Feature.passes f = true → f ∈ run ops db.
Proof.
  unfold run. induction ops as [|o ops IH]; intros db Hkey; simpl; [done|].
  destruct (exec_preserves o db Hkey) as [Hkey1 Hkeep1].
  destruct (IH _ Hkey1) as [Hkey2 Hkeep2]. split; [done|].
  intros f Hf Hp. auto.
Qed.

(** C7.  A feature that passes keeps passing through every sequence of
    calls of the tools: after the calls the table still holds the feature,
    unchanged, and it is the only row with its identifier, so its [passes]
    field is true. *)
Theorem passing_is_terminal (ops : list op) (db : store) (f : Feature.t)
    (Hkey : primary_key db) (Hf : f ∈ db) (Hp : Feature.passes f = true) :
  f ∈ run ops db
  ∧ ∀ f', f' ∈ run ops db → Feature.id f' = Feature.id f →
          Feature.passes f' = true.
Proof.
  destruct (run_preserves ops db Hkey) as [Hkey' Hkeep].
  split; [by apply Hkeep|].
  intros f' Hf' Hid.
  assert (f' = f) as -> by (apply (primary_key_inj (run ops db)); auto).
  done.
Qed.

Lemma passing_is_terminal_witness :
  primary_key db_abc
  ∧ row 3 8 "C" true ∈ db_abc
  ∧ row 3 8 "C" true
    ∈ run [Skip 3; MarkPassing 3; GetNext;
           CreateBulk [item "D"] "prepend" "enhancement" None; Skip 2; GetStats]
        db_abc.
Proof.
  assert (Hkey : primary_key db_abc) by key_by_computation.
  assert (Hin : row 3 8 "C" true ∈ db_abc) by (do 2 right; left).
  split; [exact Hkey|]. split; [exact Hin|].
  apply (passing_is_terminal _ db_abc (row 3 8 "C" true) Hkey Hin eq_refl).
Defined.

(** ** feature_search: the pattern match *)

Lemma like_nil (s : list ascii) : Like.like [] s = true ↔ s = [].
Proof. destruct s; simpl; split; congruence. Qed.

Lemma like_percent_eq (p s : list ascii) :
  Like.like (Like.percent :: p) s
  = Like.like p s
    || match s with [] => false | _ :: s' => Like.like (Like.percent :: p) s' end.
Proof. destruct s; reflexivity. Qed.


Lemma like_percent_iff (p s : list ascii) :
  Like.like (Like.percent :: p) s = true
  ↔ ∃ pre post, s = pre ++ post ∧ Like.like p post = true.
Proof.
  induction s as [|a s IH]; rewrite like_percent_eq, orb_true_iff.
  - split.
    + intros [H|H]; [|done]. by exists [], [].
    + intros (pre & post & E & H). left.
      symmetry in E. apply app_eq_nil in E as [-> ->]. done.
  - rewrite IH. split.
    + intros [H|(pre & post & -> & H)].
      * by exists [], (a :: s).
      * by exists (a :: pre), post.
    + intros ([|a' pre] & post & E & H); simpl in E.
      * left. by rewrite E.
      * right. simplify_eq. by exists pre, post.
Qed.



Lemma list_ascii_of_string_app (s1 s2 : string) :
  list_ascii_of_string (s1 ++ s2)
  = list_ascii_of_string s1 ++ list_ascii_of_string s2.
Proof. induction s1 as [|c s1 IH]; simpl; [done|]. by rewrite IH. Qed.


Lemma chars_pattern (query : string) :
  Like.chars ("%" ++ query ++ "%")
  = Like.percent :: Like.chars query ++ [Like.percent].
Proof.
  unfold Like.chars. rewrite !list_ascii_of_string_app, !fmap_app. reflexivity.
Qed.



(** ** feature_search: the rows returned *)

Lemma search_rows_spec (query : string) (limit : Z) (db : store) :
  ∃ rest,
    search_rows query limit db ++ rest ≡ₚ filter (search_filter query) db
    ∧ StronglySorted priority_asc (search_rows query limit db)
    ∧ (∀ f g, f ∈ search_rows query limit db → g ∈ rest →
              Feature.priority f ≤ Feature.priority g)
    ∧ length (search_rows query limit db)
      = Nat.min (Z.to_nat limit) (length (filter (search_filter query) db)).
Proof.
  unfold search_rows, Query.limit.
  set (sorted := Query.order_by priority_asc (filter (search_filter query) db)).
  assert (Hs : StronglySorted priority_asc sorted)
    by (apply order_by_sorted; apply _).
  rewrite <- (take_drop (Z.to_nat limit) sorted) in Hs.
  exists (drop (Z.to_nat limit) sorted). split; [|split; [|split]].
  - rewrite take_drop. apply order_by_perm.
  - by apply StronglySorted_app_1_l in Hs.
  - intros f g Hf Hg. by apply (StronglySorted_app_1_elem_of _ _ _ f g) in Hs.
  - rewrite length_take. unfold sorted. by rewrite order_by_length.
Qed.



(** C9.  The query is put into the pattern of [ilike] as it is, so [_] and
    [%] in it are wildcards: the search for [a_c] returns the feature named
    [abc], though neither its name nor its description holds [a_c]. *)
Theorem search_wildcard_mismatch :
  feature_search "a_c" 10 db_wild
  = (mk_search [mk_hit 1 "abc" "core" false] 1, db_wild)
  ∧ ∀ f, f ∈ db_wild → ¬ matches "a_c" f.
Proof.
  split; [vm_compute; reflexivity|].
  intros f Hf. apply list_elem_of_singleton in Hf as ->.
  assert (Hq : Like.chars "a_c" = ["a"; "_"; "c"]%char) by (vm_compute; reflexivity).
  assert (Hn : Like.chars "abc" = ["a"; "b"; "c"]%char) by (vm_compute; reflexivity).
  assert (Hd : Like.chars "xyz" = ["x"; "y"; "z"]%char) by (vm_compute; reflexivity).
  intros [(pre & post & E)|(pre & post & E)];
    cbn [Feature.name Feature.description] in E;
    rewrite Hq, ?Hn, ?Hd in E;
    destruct pre as [|? [|? [|? [|? pre]]]]; simpl in E; discriminate.
Qed.

(** ** feature_get_stats *)

Lemma div_half_even_nearest (n d : Z) :
  0 < d → nearest_even n d (Float.div_half_even n d).
Proof.
  intros Hd. unfold nearest_even, Float.div_half_even.
  pose proof (Z.div_mod n d ltac:(lia)) as Hn.
  pose proof (Z.mod_pos_bound n d Hd) as Hr.
  set (q := n `div` d) in *. set (r := n `mod` d) in *.
  destruct (Z.compare_spec (2 * r) d) as [Heq|Hlt|Hgt].
  - destruct (Z.even q) eqn:Hq.
    + split; [lia|done].
    + split; [lia|]. intros _. rewrite Z.even_add, Hq. reflexivity.
  - split; [lia|]. lia.
  - split; [lia|]. lia.
Qed.

Lemma nearest_even_opp (num den k : Z) :
  nearest_even num den k → nearest_even (- num) den (- k).
Proof.
  unfold nearest_even. intros [H1 H2].
  replace (- num - - k * den) with (- (num - k * den)) by lia.
  rewrite Z.abs_opp, Z.even_opp. done.
Qed.

Lemma of_int_fraction (n : Z) : float_fraction (Float.of_int n) = Some (n, 1).
Proof. by destruct n. Qed.

Lemma round1_rounded (x : spec_float) : rounded_to_one_decimal x (Float.round1 x).
Proof.
  unfold rounded_to_one_decimal, Float.round1.
  destruct x as [s|s| |s m e]; simpl; try done.
  - exists 0. split; [lia|]. split; [unfold nearest_even; simpl; lia|done].
  - assert (Hneg : ∀ k (n : Z) den,
              nearest_even (10 * n) den k →
              nearest_even (10 * (if s then - n else n)) den
                (if s then - k else k)).
    { intros k n den H. destruct s; [|done].
      replace (10 * - n) with (- (10 * n)) by lia. by apply nearest_even_opp. }
    assert (Hs : (if s then Z.neg m else Z.pos m)
                 = if s then - Z.pos m else Z.pos m) by by destruct s.
    rewrite Hs. destruct e as [|e|e].
    + exists (if s then - (10 * Z.pos m * 2 ^ 0) else 10 * Z.pos m * 2 ^ 0).
      split; [lia|]. split; [|split; [apply of_int_fraction|done]].
      apply Hneg. unfold nearest_even.
      replace (10 * Z.pos m - 10 * Z.pos m * 2 ^ 0 * 1) with 0 by lia.
      simpl. lia.
    + exists (if s then - (10 * Z.pos m * 2 ^ Z.pos e)
              else 10 * Z.pos m * 2 ^ Z.pos e).
      split; [lia|]. split; [|split; [apply of_int_fraction|done]].
      replace ((if s then - Z.pos m else Z.pos m) * 2 ^ Z.pos e)
        with (if s then - (Z.pos m * 2 ^ Z.pos e) else Z.pos m * 2 ^ Z.pos e)
        by (destruct s; lia).
      apply Hneg. unfold nearest_even.
      replace (10 * (Z.pos m * 2 ^ Z.pos e) - 10 * Z.pos m * 2 ^ Z.pos e * 1)
        with 0 by lia.
      simpl. lia.
    + assert (Hden : 0 < 2 ^ (- Z.neg e)) by (apply Z.pow_pos_nonneg; lia).
      exists (if s then - Float.div_half_even (10 * Z.pos m) (2 ^ (- Z.neg e))
              else Float.div_half_even (10 * Z.pos m) (2 ^ (- Z.neg e))).
      split; [done|]. split; [|split; [apply of_int_fraction|done]].
      apply Hneg. by apply div_half_even_nearest.
Qed.

(** C8.  [feature_get_stats] reports the number of passing features and
    the number of features; the percentage is zero on an empty table, and
    otherwise it is the binary64 product of the binary64 quotient of the two
    counts and 100, rounded to one decimal: the double for [k / 10], with
    [k] the number of tenths nearest to that product, ties to even. *)
Theorem get_stats_rounds_product (db : store) :
  st_passing (feature_get_stats db).1
  = Z.of_nat (length (filter (λ f, Feature.passes f = true) db))
  ∧ st_total (feature_get_stats db).1 = Z.of_nat (length db)
  ∧ (st_total (feature_get_stats db).1 = 0 →
     st_percentage (feature_get_stats db).1 = S754_zero false)
  ∧ (0 < st_total (feature_get_stats db).1 →
     float_fraction (Float.of_int (st_passing (feature_get_stats db).1))
     = Some (st_passing (feature_get_stats db).1, 1)
     ∧ float_fraction (Float.of_int (st_total (feature_get_stats db).1))
       = Some (st_total (feature_get_stats db).1, 1)
     ∧ rounded_to_one_decimal
         (SFmul 53 1024
            (SFdiv 53 1024
               (Float.of_int (st_passing (feature_get_stats db).1))
               (Float.of_int (st_total (feature_get_stats db).1)))
            (binary_normalize 53 1024 100 0 false))
         (st_percentage (feature_get_stats db).1))
  ∧ (feature_get_stats db).2 = db.
Proof.
  unfold feature_get_stats, Query.count. simpl.
  split; [done|]. split; [done|]. split; [|split; [|done]].
  - intros H. case_decide; [lia|done].
  - intros H. rewrite decide_True by done.
    split; [apply of_int_fraction|]. split; [apply of_int_fraction|].
    apply round1_rounded.
Qed.

(** With 23 passing features of 80 the exact percentage is 28.75, which
    rounds to 28.8; the product computed in binary64 is just below 28.75 and
    the tool reports 28.7. *)
Lemma get_stats_23_of_80 :
  st_passing (feature_get_stats db_23_of_80).1 = 23
  ∧ st_total (feature_get_stats db_23_of_80).1 = 80
  ∧ st_percentage (feature_get_stats db_23_of_80).1
    = SFdiv 53 1024 (Float.of_int 287) (S754_finite false 10 0)
  ∧ ¬ exactly_rounded
        (st_passing (feature_get_stats db_23_of_80).1)
        (st_total (feature_get_stats db_23_of_80).1)
        (st_percentage (feature_get_stats db_23_of_80).1).
Proof.
  assert (Hs : (feature_get_stats db_23_of_80).1
               = mk_stats 23 80
                   (SFdiv 53 1024 (Float.of_int 287) (S754_finite false 10 0))).
  { vm_compute. reflexivity. }
  rewrite Hs. simpl. split; [done|]. split; [done|]. split; [done|].
  intros (k & [Hnear Heven] & Hr).
  assert (Hk : k = 287 ∨ k = 288) by lia.
  destruct Hk as [-> | ->].
  - specialize (Heven ltac:(lia)). discriminate.
  - vm_compute in Hr. discriminate.
Qed.

Example get_stats_abc :
  (feature_get_stats db_abc).1
  = mk_stats 1 3 (S754_finite false 4686558362232422 (-47)).
Proof. vm_compute. reflexivity. Qed.

Example get_stats_empty :
  (feature_get_stats []).1 = mk_stats 0 0 (S754_zero false).
Proof. vm_compute. reflexivity. Qed.

(** The rounding is done on the binary value of the product: 3 passing
    features of 2000 are reported as the double next to 0.1, and 1 of 3 as
    the double next to 33.3. *)
Example percentage_3_of_2000 :
  Float.round1 (Float.mul (Float.true_div 3 2000) Float.hundred)
  = Float.true_div 1 10.
Proof. vm_compute. reflexivity. Qed.

Example percentage_1_of_3 :
  Float.round1 (Float.mul (Float.true_div 1 3) Float.hundred)
  = Float.true_div 333 10.
Proof. vm_compute. reflexivity. Qed.

(** ** How the tools compose *)

Lemma get_next_snd (db : store) : (feature_get_next db).2 = db.
Proof. unfold feature_get_next. by destruct (Query.first _). Qed.

Lemma get_next_Ok_inv (db : store) (d : Feature.dict) :
  (feature_get_next db).1 = Ok d →
  ∃ f, d = Feature.to_dict f ∧ f ∈ db ∧ Feature.passes f = false
       ∧ ∀ g, g ∈ db → Feature.passes g = false → priority_id_asc f g.
Proof.
  unfold feature_get_next.
  destruct (Query.first _) as [f|] eqn:E; simpl; [|done]. intros [= <-].
  apply first_order_by_Some in E as [Hin Hmin]; [|apply _..].
  apply list_elem_of_filter in Hin as [Hp Hin].
  exists f. repeat split; try done.
  intros g Hg Hpg. apply Hmin. by apply list_elem_of_filter.
Qed.

Lemma get_next_Err_inv (db : store) (e : error) :
  (feature_get_next db).1 = Err e → ∀ g, g ∈ db → Feature.passes g = true.
Proof.
  unfold feature_get_next.
  destruct (Query.first _) as [f|] eqn:E; simpl; [done|]. intros _.
  apply first_order_by_None in E; [|apply _..]. by apply filter_pending_nil.
Qed.

Lemma get_next_least (db : store) (f : Feature.t) :
  primary_key db → f ∈ db → Feature.passes f = false →
  (∀ g, g ∈ db → Feature.passes g = false → priority_id_asc f g) →
  (feature_get_next db).1 = Ok (Feature.to_dict f).
Proof.
  intros Hkey Hf Hp Hmin.
  destruct (feature_get_next db).1 as [d|e] eqn:E.
  - apply get_next_Ok_inv in E as (f' & -> & Hf' & Hp' & Hmin').
    specialize (Hmin f' Hf' Hp'). specialize (Hmin' f Hf Hp).
    assert (f' = f) as ->; [|done].
    apply (primary_key_inj db); try done.
    unfold priority_id_asc in *. lia.
  - apply get_next_Err_inv with (g := f) in E; [congruence|done].
Qed.

Lemma elem_of_update_where (x : Z) (upd : Feature.t → Feature.t) (db : store)
    (f' : Feature.t) :
  f' ∈ update_where x upd db
  ↔ ∃ f, f ∈ db ∧ f' = if decide (Feature.id f = x) then upd f else f.
Proof.
  unfold update_where. rewrite list_elem_of_fmap. split.
  - intros (f & -> & Hf). by exists f.
  - intros (f & Hf & ->). by exists f.
Qed.

Lemma skip_table (x : Z) (db : store) (f : Feature.t) :
  primary_key db → f ∈ db → Feature.id f = x → Feature.passes f = false →
  ∃ m, is_max_priority db m
       ∧ (feature_skip x db).2 = update_where x (Feature.set_priority (m + 1)) db.
Proof.
  intros Hkey Hf Hid Hp. unfold feature_skip.
  rewrite (get_elem_of x db f), Hp by done.
  destruct (max_priority_result db) as [m|] eqn:Em.
  - apply max_priority_result_Some in Em. exists m. split; [done|].
    simpl. by rewrite Hid.
  - apply max_priority_result_None in Em. subst db. by apply elem_of_nil in Hf.
Qed.

(** X1.  After a pending feature is skipped it is behind every other
    feature: the next feature is the least pending one among the others,
    and the skipped feature itself only when no other feature is
    pending. *)
Theorem skip_then_get_next (x : Z) (db : store) (f : Feature.t)
    (Hkey : primary_key db) (Hf : f ∈ db) (Hid : Feature.id f = x)
    (Hp : Feature.passes f = false) :
  (∀ g, g ∈ db → Feature.id g ≠ x → Feature.passes g = false →
     ∃ h, h ∈ db ∧ Feature.id h ≠ x ∧ Feature.passes h = false
          ∧ (∀ g', g' ∈ db → Feature.id g' ≠ x → Feature.passes g' = false →
               Feature.priority h < Feature.priority g'
               ∨ (Feature.priority h = Feature.priority g'
                  ∧ Feature.id h ≤ Feature.id g'))
          ∧ (feature_get_next (feature_skip x db).2).1 = Ok (Feature.to_dict h))
  ∧ ((∀ g, g ∈ db → Feature.passes g = false → Feature.id g = x) →
     ∃ d, (feature_get_next (feature_skip x db).2).1 = Ok d
          ∧ Feature.d_id d = x
          ∧ ∀ g, g ∈ db → Feature.priority g < Feature.d_priority d).
Proof.
  destruct (skip_table x db f Hkey Hf Hid Hp) as (m & Hm & ->).
  set (db' := update_where x (Feature.set_priority (m + 1)) db).
  assert (Hkey' : primary_key db').
  { unfold primary_key, db'. by rewrite update_where_ids. }
  assert (Hf' : Feature.set_priority (m + 1) f ∈ db').
  { apply elem_of_update_where. exists f. by rewrite decide_True. }
  split.
  - intros g Hg Hgid Hgp.
    assert (Hg' : g ∈ db') by (apply update_where_keeps; done).
    destruct (feature_get_next db').1 as [d|e] eqn:E.
    + apply get_next_Ok_inv in E as (h' & -> & Hh' & Hph' & Hmin).
      apply elem_of_update_where in Hh' as (h & Hh & ->).
      destruct (decide (Feature.id h = x)) as [Hhx|Hhx].
      * exfalso. specialize (Hmin g Hg' Hgp). destruct Hm as [_ Hmax].
        specialize (Hmax g Hg). unfold priority_id_asc in Hmin. simpl in Hmin. lia.
      * exists h. repeat split; try done.
        intros g' Hg1 Hg2 Hg3. apply (Hmin g'); [|done].
        by apply update_where_keeps.
    + apply get_next_Err_inv with (g := g) in E; [congruence|done].
  - intros Honly. exists (Feature.to_dict (Feature.set_priority (m + 1) f)).
    split; [|split].
    + apply get_next_least; try done.
      intros g' Hg' Hpg'. apply elem_of_update_where in Hg' as (g & Hg & ->).
      destruct (decide (Feature.id g = x)) as [Hgx|Hgx].
      * assert (g = f) as -> by (apply (primary_key_inj db); congruence).
        unfold priority_id_asc. simpl. lia.
      * specialize (Honly g Hg Hpg'). done.
    + done.
    + intros g Hg. destruct Hm as [_ Hmax]. specialize (Hmax g Hg). simpl. lia.
Qed.

Lemma skip_then_get_next_witness :
  primary_key db_abc ∧ row 2 2 "B" false ∈ db_abc
  ∧ ∃ h, Feature.id h ≠ 2
         ∧ (feature_get_next (feature_skip 2 db_abc).2).1 = Ok (Feature.to_dict h).
Proof.
  assert (Hkey : primary_key db_abc) by key_by_computation.
  assert (Hin : row 2 2 "B" false ∈ db_abc) by (right; left).
  split; [exact Hkey|]. split; [exact Hin|].
  destruct (skip_then_get_next 2 db_abc (row 2 2 "B" false) Hkey Hin eq_refl eq_refl)
    as [Hothers _].
  destruct (Hothers (row 1 5 "A" false)) as (h & _ & Hh & _ & _ & Hnext).
  - left.
  - done.
  - reflexivity.
  - exists h. split; [exact Hh|exact Hnext].
Defined.

(** X2.  Once a feature is marked as passing it is out of the queue:
    [feature_get_next] does not return it, and [feature_skip] on it fails
    with the error for a passing feature and leaves the table alone; when no
    feature has the identifier, both calls answer that it was not found. *)
Theorem mark_passing_then (x : Z) (db : store) :
  (∀ d, (feature_get_next (feature_mark_passing x db).2).1 = Ok d →
        Feature.d_id d ≠ x)
  ∧ (∀ f, f ∈ db → Feature.id f = x →
       feature_skip x (feature_mark_passing x db).2
       = (Err AlreadyPassing, (feature_mark_passing x db).2))
  ∧ ((∀ f, f ∈ db → Feature.id f ≠ x) →
       feature_mark_passing x db = (Err (NotFound x), db)
       ∧ feature_skip x (feature_mark_passing x db).2
         = (Err (NotFound x), (feature_mark_passing x db).2)).
Proof.
  unfold feature_mark_passing.
  destruct (get x db) as [feature|] eqn:Eg; simpl.
  - apply get_Some in Eg as Hfeat. destruct Hfeat as [Hin Hid].
    rewrite Hid. split; [|split].
    + intros d Hd. apply get_next_Ok_inv in Hd as (f' & -> & Hf' & Hp' & _).
      apply elem_of_update_where in Hf' as (f & Hf & ->).
      destruct (decide (Feature.id f = x)); [done|]. done.
    + intros _ _ _. unfold feature_skip.
      rewrite get_update_where, Eg by done. reflexivity.
    + intros Habs. by destruct (Habs feature Hin).
  - pose proof Eg as Habs. rewrite get_None in Habs. split; [|split].
    + intros d Hd. apply get_next_Ok_inv in Hd as (f & -> & Hf & _).
      by apply Habs.
    + intros f Hf Hid. by destruct (Habs f Hf).
    + intros _. split; [done|]. unfold feature_skip. by rewrite Eg.
Qed.

Lemma get_next_only_least (db : store) (f : Feature.t) :
  f ∈ db → Feature.passes f = false →
  (∀ g, g ∈ db → Feature.passes g = false → priority_id_asc f g) →
  (∀ g, g ∈ db → Feature.passes g = false → priority_id_asc g f → g = f) →
  (feature_get_next db).1 = Ok (Feature.to_dict f).
Proof.
  intros Hf Hp Hmin Honly.
  destruct (feature_get_next db).1 as [d|e] eqn:E.
  - apply get_next_Ok_inv in E as (f' & -> & Hf' & Hp' & Hmin').
    by rewrite (Honly f' Hf' Hp' (Hmin' f Hf Hp)).
  - apply get_next_Err_inv with (g := f) in E; [congruence|done].
Qed.

Lemma created_rows_elem_of (features : list (gmap string jval)) (new : store)
    (start first_id : Z) (g : Feature.t) :
  length new = length features →
  (∀ (k : nat) fd, features !! k = Some fd →
     ∃ f, new !! k = Some f
          ∧ Feature.id f = first_id + Z.of_nat k
          ∧ Feature.priority f = start + Z.of_nat k
          ∧ Feature.passes f = false) →
  g ∈ new →
  ∃ k : nat, Feature.id g = first_id + Z.of_nat k
             ∧ Feature.priority g = start + Z.of_nat k.
Proof.
  intros Hlen Hnew Hg. apply list_elem_of_lookup in Hg as [k Hk].
  pose proof (lookup_lt_Some _ _ _ Hk) as Hlt. rewrite Hlen in Hlt.
  destruct (lookup_lt_is_Some_2 features k Hlt) as [fd Hfd].
  destruct (Hnew k fd Hfd) as (f & Hf & Hid & Hpr & _).
  assert (f = g) as -> by congruence. by exists k.
Qed.

(** X3.  After a batch of well-formed items is created in prepend mode,
    the next feature is the one created for the first item of the batch. *)
Theorem prepend_then_get_next (fd : gmap string jval)
    (features : list (gmap string jval)) (source : string)
    (batch_id : option string) (db : store)
    (Hwf : Forall well_formed (fd :: features)) :
  ∃ f,
    (feature_get_next
       (feature_create_bulk (fd :: features) "prepend" source batch_id db).2).1
    = Ok (Feature.to_dict f)
    ∧ created_from fd f
    ∧ Feature.source f = source
    ∧ Feature.batch_id f = batch_id
    ∧ ∀ g, g ∈ db → Feature.passes g = false →
           Feature.priority f < Feature.priority g.
Proof.
  destruct (create_bulk_ok (fd :: features) "prepend" source batch_id db Hwf)
    as (new & Heq & Hlen & Hnew).
  rewrite Heq. simpl snd.
  set (start := start_priority "prepend" (fd :: features) db) in *.
  destruct (Hnew 0%nat fd eq_refl) as (f & Hf & Hfid & Hfp & Hfpass & Hfs & Hfb & Hcf).
  assert (Hold : ∀ g, g ∈ db → Feature.passes g = false → start < Feature.priority g).
  { intros g Hg Hpg. unfold start, start_priority. rewrite decide_True by done.
    destruct (min_pending db) as [p|] eqn:Ep.
    - apply min_pending_Some in Ep as [_ Hmin]. specialize (Hmin g Hg Hpg).
      simpl length. lia.
    - rewrite min_pending_None in Ep. specialize (Ep g Hg). congruence. }
  assert (Hrows : ∀ (k : nat) fd', (fd :: features) !! k = Some fd' →
            ∃ f', new !! k = Some f'
                  ∧ Feature.id f' = next_id db + Z.of_nat k
                  ∧ Feature.priority f' = start + Z.of_nat k
                  ∧ Feature.passes f' = false).
  { intros k fd' Hk. destruct (Hnew k fd' Hk) as (f' & ? & ? & ? & ? & _).
    by exists f'. }
  exists f. split; [|split; [done|split; [done|split; [done|]]]].
  - apply get_next_only_least; try done.
    + apply elem_of_app. right. by eapply list_elem_of_lookup_2.
    + intros g Hg Hpg. unfold priority_id_asc.
      apply elem_of_app in Hg as [Hg|Hg].
      * specialize (Hold g Hg Hpg). lia.
      * destruct (created_rows_elem_of (fd :: features) new start (next_id db) g)
          as (k & Hgid & Hgp); [done|done|done|lia].
    + intros g Hg Hpg Hle. unfold priority_id_asc in Hle.
      apply elem_of_app in Hg as [Hg|Hg].
      * specialize (Hold g Hg Hpg). lia.
      * apply list_elem_of_lookup in Hg as [k Hk].
        pose proof (lookup_lt_Some _ _ _ Hk) as Hlt. rewrite Hlen in Hlt.
        destruct (lookup_lt_is_Some_2 (fd :: features) k Hlt) as [fd' Hfd'].
        destruct (Hrows k fd' Hfd') as (f' & Hf' & _ & Hp' & _).
        assert (f' = g) as -> by congruence.
        assert (k = 0%nat) as -> by lia. congruence.
  - intros g Hg Hpg. specialize (Hold g Hg Hpg). lia.
Qed.

Lemma prepend_then_get_next_witness :
  Forall well_formed [item "D"; item "E"]
  ∧ ∃ f,
      (feature_get_next
         (feature_create_bulk [item "D"; item "E"] "prepend" "enhancement" None
            db_abc).2).1
      = Ok (Feature.to_dict f)
      ∧ created_from (item "D") f.
Proof.
  assert (Hwf : Forall well_formed [item "D"; item "E"]).
  { repeat constructor; eexists _, _, _, _; repeat split; vm_compute; reflexivity. }
  split; [exact Hwf|].
  destruct (prepend_then_get_next (item "D") [item "E"] "enhancement" None db_abc
              Hwf) as (f & Hnext & Hcf & _).
  exists f. split; [exact Hnext|exact Hcf].
Defined.

(** X4.  A batch of well-formed items created in append mode goes behind
    the queue: when a feature is pending, the next feature is the same
    before and after the call. *)
Theorem append_keeps_next (features : list (gmap string jval))
    (priority_mode source : string) (batch_id : option string) (db : store)
    (d : Feature.dict)
    (Hkey : primary_key db) (Hwf : Forall well_formed features)
    (Hmode : priority_mode ≠ "prepend"%string)
    (Hnext : (feature_get_next db).1 = Ok d) :
  (feature_get_next
     (feature_create_bulk features priority_mode source batch_id db).2).1
  = Ok d.
Proof.
  destruct (create_bulk_ok features priority_mode source batch_id db Hwf)
    as (new & Heq & Hlen & Hnew).
  rewrite Heq. simpl snd.
  apply get_next_Ok_inv in Hnext as (f & -> & Hf & Hp & Hmin).
  destruct (start_priority_append priority_mode features db Hmode) as [_ Hstart].
  destruct (max_priority_result db) as [m|] eqn:Em.
  2:{ apply max_priority_result_None in Em. subst db. by apply elem_of_nil in Hf. }
  apply max_priority_result_Some in Em.
  rewrite (Hstart m Em) in Hnew. destruct Em as [_ Hmax].
  assert (Hbehind : ∀ g, g ∈ new → Feature.priority f < Feature.priority g).
  { intros g Hg.
    destruct (created_rows_elem_of features new (m + 1) (next_id db) g)
      as (k & Hgid & Hgp); [done| |done|].
    - intros k fd' Hk. destruct (Hnew k fd' Hk) as (f' & ? & ? & ? & ? & _).
      by exists f'.
    - specialize (Hmax f Hf). lia. }
  apply get_next_only_least; try done.
  - apply elem_of_app. by left.
  - intros g Hg Hpg. apply elem_of_app in Hg as [Hg|Hg]; [by apply Hmin|].
    specialize (Hbehind g Hg). unfold priority_id_asc. lia.
  - intros g Hg Hpg Hle. unfold priority_id_asc in Hle.
    apply elem_of_app in Hg as [Hg|Hg].
    + specialize (Hmin g Hg Hpg). unfold priority_id_asc in Hmin.
      apply (primary_key_inj db); try done. lia.
    + specialize (Hbehind g Hg). lia.
Qed.

Lemma append_keeps_next_witness :
  primary_key db_abc ∧ Forall well_formed [item "D"; item "E"]
  ∧ (feature_get_next db_abc).1 = Ok (Feature.to_dict (row 2 2 "B" false))
  ∧ (feature_get_next
       (feature_create_bulk [item "D"; item "E"] "append" "initializer" None
          db_abc).2).1
    = Ok (Feature.to_dict (row 2 2 "B" false)).
Proof.
  assert (Hkey : primary_key db_abc) by key_by_computation.
  assert (Hwf : Forall well_formed [item "D"; item "E"]).
  { repeat constructor; eexists _, _, _, _; repeat split; vm_compute; reflexivity. }
  assert (Hnext : (feature_get_next db_abc).1 = Ok (Feature.to_dict (row 2 2 "B" false))).
  { vm_compute. reflexivity. }
  split; [exact Hkey|]. split; [exact Hwf|]. split; [exact Hnext|].
  apply (append_keeps_next [item "D"; item "E"] "append" "initializer" None db_abc
           _ Hkey Hwf); [discriminate|exact Hnext].
Defined.

(** ** What no tool does *)

Lemma same_feature_refl (f : Feature.t) : same_feature f f.
Proof. by repeat split. Qed.

Lemma same_feature_trans (f g h : Feature.t) :
  same_feature f g → same_feature g h → same_feature f h.
Proof.
  unfold same_feature.
  intros (? & ? & ? & ? & ? & ? & ?) (? & ? & ? & ? & ? & ? & ?).
  repeat split; congruence.
Qed.

Lemma update_where_row (x : Z) (upd : Feature.t → Feature.t) (db : store)
    (i : nat) (f : Feature.t) :
  (∀ g, same_feature g (upd g)) →
  db !! i = Some f →
  ∃ f', update_where x upd db !! i = Some f' ∧ same_feature f f'.
Proof.
  intros Hupd Hi. unfold update_where. rewrite list_lookup_fmap, Hi. simpl.
  eexists. split; [done|].
  destruct (decide _); [apply Hupd|apply same_feature_refl].
Qed.

Lemma create_bulk_extends (features : list (gmap string jval))
    (priority_mode source : string) (batch_id : option string) (db : store) :
  ∃ new, (feature_create_bulk features priority_mode source batch_id db).2
         = db ++ new.
Proof.
  unfold feature_create_bulk. cbv zeta.
  destruct (add_features _ _ _ _ _ _ _) as [[added cc]|e]; simpl.
  - rewrite flush_rows_of. destruct (rows_of _ _) as [rows|]; simpl.
    + by exists rows.
    + exists []. by rewrite app_nil_r.
  - exists []. by rewrite app_nil_r.
Qed.

Lemma exec_keeps_rows (o : op) (db : store) (i : nat) (f : Feature.t) :
  db !! i = Some f →
  ∃ f', (exec o db).2 !! i = Some f' ∧ same_feature f f'.
Proof.
  intros Hi.
  assert (Hsame : ∃ f', db !! i = Some f' ∧ same_feature f f')
    by (exists f; split; [done|apply same_feature_refl]).
  destruct o; simpl; try done.
  - by rewrite get_next_snd.
  - unfold feature_mark_passing. destruct (get feature_id db); simpl; [|done].
    apply update_where_row; [|done]. intros g. by repeat split.
  - unfold feature_skip. destruct (get feature_id db) as [g|]; simpl; [|done].
    destruct (Feature.passes g); simpl; [done|].
    apply update_where_row; [|done]. intros g'. by repeat split.
  - destruct (create_bulk_extends features priority_mode source batch_id db)
      as [new ->].
    exists f. split; [|apply same_feature_refl].
    by apply lookup_app_l_Some.
Qed.

Lemma run_cons (o : op) (ops : list op) (db : store) :
  run (o :: ops) db = run ops (exec o db).2.
Proof. reflexivity. Qed.

(** X5.  No sequence of calls removes, moves or rewrites a feature: the
    row at a position of the table stays at that position, with the same
    identifier, category, name, description, steps, source and batch. *)
Theorem rows_are_permanent (ops : list op) (db : store) (i : nat) (f : Feature.t)
    (Hi : db !! i = Some f) :
  ∃ f', run ops db !! i = Some f' ∧ same_feature f f'.
Proof.
  revert db f Hi. induction ops as [|o ops IH]; intros db f Hi.
  - exists f. split; [done|apply same_feature_refl].
  - rewrite run_cons.
    destruct (exec_keeps_rows o db i f Hi) as (f1 & Hi1 & Hs1).
    destruct (IH _ f1 Hi1) as (f' & Hi' & Hs').
    exists f'. split; [done|]. by eapply same_feature_trans.
Qed.

Lemma rows_are_permanent_witness :
  db_abc !! 1%nat = Some (row 2 2 "B" false)
  ∧ ∃ f', run [Skip 2; MarkPassing 2;
               CreateBulk [item "D"] "prepend" "enhancement" None] db_abc
          !! 1%nat = Some f'
          ∧ same_feature (row 2 2 "B" false) f'.
Proof.
  split; [reflexivity|].
  apply (rows_are_permanent _ db_abc 1 (row 2 2 "B" false) eq_refl).
Defined.

Lemma add_features_Ok_inv (sp : Z) (src : string) (b : option string)
    (features : list (gmap string jval)) :
  ∀ (i : nat) (added added' : list new_feature) (cc cc' : Z),
    add_features sp src b i features added cc = Ok (added', cc') →
    added' = added ++ imap (λ k fd, db_feature sp src b (i + k) fd) features
    ∧ cc' = cc + Z.of_nat (length features).
Proof.
  induction features as [|fd features IH]; intros i added added' cc cc' E.
  - simpl in E. simplify_eq. rewrite app_nil_r. split; [done|]. simpl. lia.
  - simpl in E. destruct (has_required fd); simpl in E; [|done].
    apply IH in E as [-> ->]. split; [|simpl length; lia].
    rewrite <- app_assoc. simpl. rewrite Nat.add_0_r. do 2 f_equal.
    apply imap_ext. intros k x _. unfold compose. f_equal. lia.
Qed.

Lemma rows_of_Some (added : list new_feature) :
  ∀ (first_id : Z) (rows : list Feature.t),
    rows_of first_id added = Some rows →
    length rows = length added
    ∧ ∀ (k : nat) r, rows !! k = Some r →
        ∃ o, added !! k = Some o ∧ to_row (first_id + Z.of_nat k) o = Some r.
Proof.
  induction added as [|o added IH]; intros first_id rows E; simpl in E.
  - simplify_eq. split; [done|]. intros k r Hk. by rewrite lookup_nil in Hk.
  - destruct (to_row first_id o) as [r0|] eqn:Er; [|done]. simpl in E.
    destruct (rows_of (first_id + 1) added) as [rs|] eqn:Ers; [|done].
    simpl in E. simplify_eq. destruct (IH _ _ Ers) as [Hlen Hrs].
    split; [simpl; by rewrite Hlen|].
    intros [|k] r Hk; simpl in Hk.
    + simplify_eq. exists o. split; [done|]. by rewrite Z.add_0_r.
    + destruct (Hrs k r Hk) as (o' & Ho' & Hr). exists o'. split; [done|].
      rewrite <- Hr. f_equal. lia.
Qed.

(** X7.  [feature_create_bulk] creates all the features or none: either
    it answers with an error and the table is what it was, or it reports as
    many created features as there are items and the table is the old one
    followed by that many new rows, each pending and carrying the source
    and the batch of the call. *)
Theorem create_bulk_all_or_nothing (features : list (gmap string jval))
    (priority_mode source : string) (batch_id : option string) (db : store) :
  (∃ e, feature_create_bulk features priority_mode source batch_id db = (Err e, db))
  ∨ (∃ start new,
       feature_create_bulk features priority_mode source batch_id db
       = (Ok (mk_created (Z.of_nat (length features)) priority_mode start
                source batch_id),
          db ++ new)
       ∧ length new = length features
       ∧ ∀ (k : nat) f, new !! k = Some f →
           Feature.priority f = start + Z.of_nat k
           ∧ Feature.passes f = false
           ∧ Feature.source f = source
           ∧ Feature.batch_id f = batch_id).
Proof.
  unfold feature_create_bulk. cbv zeta.
  set (start := start_priority priority_mode features db).
  destruct (add_features start source batch_id 0 features [] 0)
    as [[added cc]|e] eqn:Eadd; [|left; by exists e].
  apply add_features_Ok_inv in Eadd as [-> ->].
  rewrite app_nil_l, flush_rows_of.
  destruct (rows_of _ _) as [rows|] eqn:Erows; simpl;
    [|left; by exists StoreException].
  right. exists start, rows. apply rows_of_Some in Erows as [Hlen Hrows].
  rewrite length_imap in Hlen. split; [done|]. split; [done|].
  intros k f Hk. destruct (Hrows k f Hk) as (o & Ho & Hr).
  apply list_lookup_imap_Some in Ho as (fd & Hfd & ->).
  apply to_row_Some in Hr as (_ & Hp & Hpass & Hs & Hb & _).
  rewrite Hp, Hpass, Hs, Hb. by repeat split.
Qed.

(** X8.  The priority mode is not checked: every mode other than
    [prepend] does what [append] does, the answer repeating the mode it was
    given. *)
Theorem other_mode_appends (features : list (gmap string jval))
    (priority_mode source : string) (batch_id : option string) (db : store)
    (Hmode : priority_mode ≠ "prepend"%string) :
  feature_create_bulk features priority_mode source batch_id db
  = (match (feature_create_bulk features "append" source batch_id db).1 with
     | Ok r => Ok (mk_created (cr_created r) priority_mode (cr_start_priority r)
                     (cr_source r) (cr_batch_id r))
     | Err e => Err e
     end,
     (feature_create_bulk features "append" source batch_id db).2).
Proof.
  unfold feature_create_bulk. cbv zeta.
  assert (start_priority priority_mode features db
          = start_priority "append" features db) as ->.
  { unfold start_priority. by rewrite !decide_False by done. }
  destruct (add_features _ _ _ _ _ _ _) as [[added cc]|e]; [|done].
  by destruct (flush added db).
Qed.

Lemma other_mode_appends_witness :
  "PREPEND"%string ≠ "prepend"%string
  ∧ Feature.priority
    <$> (feature_create_bulk [item "D"] "PREPEND" "enhancement" None db_abc).2
    = [5; 2; 8; 9].
Proof.
  assert (Hmode : "PREPEND"%string ≠ "prepend"%string) by discriminate.
  split; [exact Hmode|].
  rewrite (other_mode_appends [item "D"] "PREPEND" "enhancement" None db_abc Hmode).
  vm_compute. reflexivity.
Defined.

Lemma count_passing_update (x : Z) (db : store) :
  length (filter passing (update_where x (Feature.set_passes true) db))
  = (length (filter passing db)
     + length (filter (λ g, Feature.id g = x ∧ Feature.passes g = false) db))%nat.
Proof.
  unfold update_where. induction db as [|a db IH]; [done|].
  rewrite fmap_cons, !filter_cons.
  assert (Hcases : passing a ∨ Feature.passes a = false).
  { unfold passing. destruct (Feature.passes a); auto. }
  destruct (decide (Feature.id a = x)) as [Hx|Hx]; destruct Hcases as [Hp|Hp].
  - rewrite (decide_True (P := passing (Feature.set_passes true a))) by done.
    rewrite (decide_True (P := passing a)) by done.
    rewrite decide_False by (unfold passing in Hp; intros [_ ?]; congruence).
    simpl. by rewrite IH.
  - rewrite (decide_True (P := passing (Feature.set_passes true a))) by done.
    rewrite (decide_False (P := passing a)) by (unfold passing; congruence).
    rewrite decide_True by done.
    simpl. rewrite IH. lia.
  - rewrite !(decide_True (P := passing a)) by done.
    rewrite decide_False by (intros [? _]; congruence).
    simpl. by rewrite IH.
  - rewrite !(decide_False (P := passing a)) by (unfold passing; congruence).
    rewrite decide_False by (intros [? _]; congruence).
    by rewrite IH.
Qed.

Lemma count_pending_id (db : store) (f : Feature.t) :
  primary_key db → f ∈ db →
  length (filter (λ g, Feature.id g = Feature.id f ∧ Feature.passes g = false) db)
  = if Feature.passes f then 0%nat else 1%nat.
Proof.
  unfold primary_key. induction db as [|a db IH]; intros Hkey Hf.
  - by apply elem_of_nil in Hf.
  - rewrite fmap_cons in Hkey. apply NoDup_cons in Hkey as [Hna Hkey].
    rewrite filter_cons. apply elem_of_cons in Hf as [->|Hf].
    + assert (Hnone : filter (λ g, Feature.id g = Feature.id a
                                   ∧ Feature.passes g = false) db = []).
      { apply filter_nil_forall. intros g Hg [Hid _]. apply Hna.
        rewrite <- Hid. by apply list_elem_of_fmap_2. }
      rewrite Hnone.
      assert (Hcases : Feature.passes a = true ∨ Feature.passes a = false)
        by (destruct (Feature.passes a); auto).
      destruct Hcases as [Hpa|Hpa].
      * rewrite decide_False by (intros [_ ?]; congruence). by rewrite Hpa.
      * rewrite decide_True by done. by rewrite Hpa.
    + rewrite decide_False.
      * by apply IH.
      * intros [Hid _]. apply Hna. rewrite Hid. by apply list_elem_of_fmap_2.
Qed.

(** X9.  Marking a feature as passing leaves the number of features as
    it is and raises the number of passing features by one when the feature
    was pending, by nothing when it was passing already. *)
Theorem mark_passing_stats (x : Z) (db : store) (f : Feature.t)
    (Hkey : primary_key db) (Hf : f ∈ db) (Hid : Feature.id f = x) :
  st_total (feature_get_stats (feature_mark_passing x db).2).1
  = st_total (feature_get_stats db).1
  ∧ st_passing (feature_get_stats (feature_mark_passing x db).2).1
    = st_passing (feature_get_stats db).1 + (if Feature.passes f then 0 else 1).
Proof.
  unfold feature_mark_passing. rewrite (get_elem_of x db f) by done. simpl.
  unfold Query.count. rewrite Hid. split.
  - unfold update_where. by rewrite length_fmap.
  - rewrite count_passing_update. subst x. rewrite count_pending_id by done.
    destruct (Feature.passes f); lia.
Qed.

Lemma mark_passing_stats_witness :
  primary_key db_abc ∧ row 1 5 "A" false ∈ db_abc
  ∧ st_passing (feature_get_stats (feature_mark_passing 1 db_abc).2).1
    = st_passing (feature_get_stats db_abc).1 + 1.
Proof.
  assert (Hkey : primary_key db_abc) by key_by_computation.
  assert (Hin : row 1 5 "A" false ∈ db_abc) by left.
  split; [exact Hkey|]. split; [exact Hin|].
  apply (mark_passing_stats 1 db_abc (row 1 5 "A" false) Hkey Hin eq_refl).
Defined.

(** ** The read-only tools *)

#[global] Instance by_draw_trans : Transitive by_draw.
Proof. intros a b c. unfold by_draw. lia. Qed.
#[global] Instance by_draw_total : Total by_draw.
Proof. intros a b. unfold by_draw. lia. Qed.

Lemma snd_imap_pair {A} (key : nat → Z) (l : list A) :
  snd <$> imap (λ i x, (key i, x)) l = l.
Proof.
  revert key. induction l as [|x l IH]; intros key; [done|].
  rewrite imap_cons, fmap_cons. simpl. f_equal. apply (IH (key ∘ S)).
Qed.

(** X10.  Whatever numbers the store draws, [feature_get_for_regression]
    returns passing features of the table, no row twice, as many as the
    limit allows and the table has; it does not write. *)
Theorem regression_sample (rnd : nat → Z) (limit : Z) (db : store)
    (Hlimit : 1 ≤ limit ≤ 10) :
  ∃ rows rest,
    feature_get_for_regression rnd limit db
    = (mk_regression (Feature.to_dict <$> rows) (Z.of_nat (length rows)), db)
    ∧ rows ++ rest ≡ₚ filter (λ f, Feature.passes f = true) db
    ∧ length rows
      = Nat.min (Z.to_nat limit)
          (length (filter (λ f, Feature.passes f = true) db)).
Proof.
  unfold feature_get_for_regression, Query.limit.
  set (keyed := imap (λ i f, (rnd i, f)) (filter passing db)).
  set (sorted := Query.order_by by_draw keyed).
  exists (snd <$> take (Z.to_nat limit) sorted),
         (snd <$> drop (Z.to_nat limit) sorted).
  split; [done|]. split.
  - rewrite <- fmap_app, take_drop. unfold sorted.
    rewrite order_by_perm by apply _. unfold keyed. by rewrite snd_imap_pair.
  - rewrite length_fmap, length_take. unfold sorted.
    rewrite order_by_length by apply _. unfold keyed. by rewrite length_imap.
Qed.

Lemma regression_sample_witness :
  1 ≤ 3 ≤ 10
  ∧ ∃ rows, (feature_get_for_regression (λ i, Z.of_nat i) 3 db_abc).1
            = mk_regression (Feature.to_dict <$> rows) (Z.of_nat (length rows))
            ∧ length rows = 1%nat.
Proof.
  assert (Hl : 1 ≤ 3 ≤ 10) by lia.
  split; [exact Hl|].
  destruct (regression_sample (λ i, Z.of_nat i) 3 db_abc Hl)
    as (rows & rest & Heq & _ & Hlen).
  exists rows. split; [by rewrite Heq|exact Hlen].
Defined.

Lemma distinct_categories_spec (db : store) :
  (∀ c, c ∈ distinct_categories db ↔ ∃ f, f ∈ db ∧ Feature.category f = c)
  ∧ NoDup (distinct_categories db)
  ∧ StronglySorted String.le (distinct_categories db).
Proof.
  unfold distinct_categories. split; [|split].
  - intros c. rewrite order_by_elem_of by apply _.
    rewrite elem_of_remove_dups, list_elem_of_fmap. split.
    + intros (f & -> & Hf). by exists f.
    + intros (f & Hf & <-). by exists f.
  - rewrite order_by_perm by apply _. apply NoDup_remove_dups.
  - apply order_by_sorted; apply _.
Qed.

(** X11.  [feature_get_all_categories] lists the categories that some
    feature of the table has, each once, in ascending order, with their
    number. *)
Theorem all_categories_spec (db : store) :
  (∀ c, c ∈ cat_list (feature_get_all_categories db).1
        ↔ ∃ f, f ∈ db ∧ Feature.category f = c)
  ∧ NoDup (cat_list (feature_get_all_categories db).1)
  ∧ StronglySorted String.le (cat_list (feature_get_all_categories db).1)
  ∧ cat_count (feature_get_all_categories db).1
    = Z.of_nat (length (cat_list (feature_get_all_categories db).1))
  ∧ (feature_get_all_categories db).2 = db.
Proof.
  destruct (distinct_categories_spec db) as (H1 & H2 & H3).
  unfold feature_get_all_categories. simpl.
  split; [done|split; [done|split; [done|split; reflexivity]]].
Qed.

Lemma sum_list_zero {A} (l : list A) : sum_list ((λ _, 0) <$> l) = 0.
Proof. induction l as [|x l IH]; [done|]. rewrite fmap_cons. simpl. by rewrite IH. Qed.

Lemma sum_list_plus {A} (g h : A → Z) (l : list A) :
  sum_list ((λ x, g x + h x) <$> l) = sum_list (g <$> l) + sum_list (h <$> l).
Proof.
  induction l as [|x l IH]; [done|]. rewrite !fmap_cons. simpl. rewrite IH. lia.
Qed.

Lemma sum_list_indicator (w : Z) (c : string) (cs : list string) :
  NoDup cs → c ∈ cs →
  sum_list ((λ c', if decide (c = c') then w else 0) <$> cs) = w.
Proof.
  induction cs as [|a cs IH]; intros Hnd Hc.
  - by apply elem_of_nil in Hc.
  - apply NoDup_cons in Hnd as [Hna Hnd]. rewrite fmap_cons. simpl.
    apply elem_of_cons in Hc as [->|Hc].
    + rewrite decide_True by done.
      rewrite (list_fmap_ext _ (λ _, 0) cs); [rewrite sum_list_zero; lia|].
      intros i c' Hc'. rewrite decide_False; [done|].
      intros ->. apply Hna. by eapply list_elem_of_lookup_2.
    + rewrite decide_False by (intros ->; done). rewrite IH by done. lia.
Qed.

Lemma sum_list_ones {A} (l : list A) :
  sum_list ((λ _, 1) <$> l) = Z.of_nat (length l).
Proof.
  induction l as [|x l IH]; [done|]. rewrite fmap_cons. simpl sum_list.
  rewrite IH. simpl length. lia.
Qed.

Lemma sum_list_passing (l : list Feature.t) :
  sum_list ((λ f, if Feature.passes f then 1 else 0) <$> l)
  = Z.of_nat (length (filter passing l)).
Proof.
  induction l as [|a l IH]; [done|]. rewrite fmap_cons, filter_cons.
  simpl sum_list. rewrite IH.
  assert (Hcases : passing a ∨ Feature.passes a = false).
  { unfold passing. destruct (Feature.passes a); auto. }
  destruct Hcases as [Hp|Hp].
  - rewrite decide_True by done. rewrite Hp. simpl length. lia.
  - rewrite decide_False by (unfold passing; congruence). rewrite Hp. lia.
Qed.

Lemma sum_groups (w : Feature.t → Z) (cs : list string) (db : store) :
  NoDup cs → (∀ f, f ∈ db → Feature.category f ∈ cs) →
  sum_list ((λ c, sum_list (w <$> filter (λ f, Feature.category f = c) db)) <$> cs)
  = sum_list (w <$> db).
Proof.
  intros Hnd. induction db as [|a db IH]; intros Hcs.
  - apply sum_list_zero.
  - rewrite (list_fmap_ext _
       (λ c, (if decide (Feature.category a = c) then w a else 0)
             + sum_list (w <$> filter (λ f, Feature.category f = c) db)) cs).
    + rewrite sum_list_plus, sum_list_indicator by (done || apply Hcs; left).
      rewrite IH by (intros f Hf; apply Hcs; by right).
      by rewrite fmap_cons.
    + intros i c _. rewrite filter_cons.
      destruct (decide (Feature.category a = c)); [by rewrite fmap_cons|lia].
Qed.

(** X12.  The overall figures of [feature_get_summary] are those of
    [feature_get_stats]: the per-category totals add up to the number of
    features, and the per-category passing counts to the number of passing
    features. *)
Theorem summary_overall (db : store) :
  sm_overall_total (feature_get_summary db).1 = st_total (feature_get_stats db).1
  ∧ sm_overall_passing (feature_get_summary db).1
    = st_passing (feature_get_stats db).1
  ∧ sm_overall_total (feature_get_summary db).1 = Z.of_nat (length db).
Proof.
  destruct (distinct_categories_spec db) as (Hin & Hnd & _).
  assert (Hall : ∀ f, f ∈ db → Feature.category f ∈ distinct_categories db).
  { intros f Hf. apply Hin. by exists f. }
  unfold feature_get_summary, feature_get_stats, category_stats, Query.count.
  simpl. rewrite <- !list_fmap_compose.
  assert (Htotal : sum_list
            (cs_total
             ∘ (λ cat,
                  mk_category_stat cat
                    (Z.of_nat (length (filter (λ f, Feature.category f = cat) db)))
                    (sum_list
                       ((λ f, if Feature.passes f then 1 else 0)
                        <$> filter (λ f, Feature.category f = cat) db)))
             <$> distinct_categories db)
          = Z.of_nat (length db)).
  { rewrite <- (sum_list_ones db), <- (sum_groups (λ _, 1) _ db Hnd Hall).
    f_equal. apply list_fmap_ext. intros i c _. simpl. by rewrite sum_list_ones. }
  split; [done|]. split; [|done].
  rewrite <- sum_list_passing.
  rewrite <- (sum_groups (λ f, if Feature.passes f then 1 else 0) _ db Hnd Hall).
  f_equal.
Qed.

(** X13.  [feature_get_summary] has one entry per category of the table,
    in the order of [feature_get_all_categories]; the entry counts the
    features of the category and those of them that pass, and no entry is
    empty. *)
Theorem summary_per_category (db : store) :
  cs_name <$> sm_categories (feature_get_summary db).1
  = cat_list (feature_get_all_categories db).1
  ∧ ∀ e, e ∈ sm_categories (feature_get_summary db).1 →
      cs_total e
      = Z.of_nat (length (filter (λ f, Feature.category f = cs_name e) db))
      ∧ cs_passing e
        = Z.of_nat
            (length (filter (λ f, Feature.passes f = true
                                  ∧ Feature.category f = cs_name e) db))
      ∧ 1 ≤ cs_total e
      ∧ 0 ≤ cs_passing e ≤ cs_total e.
Proof.
  unfold feature_get_summary, feature_get_all_categories, category_stats. simpl.
  split.
  - rewrite <- list_fmap_compose. apply list_fmap_id.
  - intros e He. apply list_elem_of_fmap in He as (c & -> & Hc). simpl.
    apply distinct_categories_spec in Hc as (f & Hf & Hfc).
    rewrite sum_list_passing, list_filter_filter. unfold Query.count.
    assert (Hle : (length (filter (λ x, passing x ∧ Feature.category x = c) db)
                   ≤ length (filter (λ x, Feature.category x = c) db))%nat).
    { rewrite <- (list_filter_filter passing). apply length_filter. }
    assert (Hpos : (1 ≤ length (filter (λ x, Feature.category x = c) db))%nat).
    { assert (Hfin : f ∈ filter (λ x, Feature.category x = c) db)
        by by apply list_elem_of_filter.
      apply list_elem_of_lookup in Hfin as [i Hi].
      apply lookup_lt_Some in Hi. lia. }
    unfold passing in *. lia.
Qed.

(** ** feature_get_stats: the bounds *)

Lemma div_core_self (m : positive) :
  SFdiv_core_binary Float.prec Float.emax (Z.pos m) 0 (Z.pos m) 0
  = (2 ^ 53, -53, loc_Exact).
Proof.
  unfold SFdiv_core_binary. cbv zeta.
  replace (Zdigits2 (Z.pos m) + 0 - (Zdigits2 (Z.pos m) + 0)) with 0 by lia.
  change (Z.min (fexp Float.prec Float.emax 0) (0 - 0)) with (-53).
  change (0 - 0 - -53) with 53. cbv iota.
  rewrite Z.shiftl_mul_pow2, (Z.mul_comm (Z.pos m)) by lia.
  pose proof (surjective_pairing
                (IntDef.Z.div_eucl (2 ^ 53 * Z.pos m) (Z.pos m))) as E.
  change (fst (IntDef.Z.div_eucl (2 ^ 53 * Z.pos m) (Z.pos m)))
    with ((2 ^ 53 * Z.pos m) `div` Z.pos m) in E.
  change (snd (IntDef.Z.div_eucl (2 ^ 53 * Z.pos m) (Z.pos m)))
    with ((2 ^ 53 * Z.pos m) `mod` Z.pos m) in E.
  rewrite Z.div_mul, Z.mod_mul in E by lia.
  rewrite E. unfold new_location. by destruct (Z.even (Z.pos m)).
Qed.

Lemma true_div_self (m : positive) :
  Float.true_div (Z.pos m) (Z.pos m) = S754_finite false 4503599627370496 (-52).
Proof.
  unfold Float.true_div, Float.of_int, SFdiv. rewrite div_core_self.
  vm_compute. reflexivity.
Qed.

Lemma true_div_zero (m : positive) : Float.true_div 0 (Z.pos m) = S754_zero false.
Proof. reflexivity. Qed.

(** X14.  In the answer of [feature_get_stats] the number of passing
    features lies between 0 and the number of features; the percentage is
    exactly 0.0 when no feature passes and exactly 100.0 when the table is
    not empty and every feature passes. *)
Theorem get_stats_bounds (db : store) :
  0 ≤ st_passing (feature_get_stats db).1 ≤ st_total (feature_get_stats db).1
  ∧ ((∀ f, f ∈ db → Feature.passes f = false) →
     st_percentage (feature_get_stats db).1 = S754_zero false)
  ∧ (db ≠ [] → (∀ f, f ∈ db → Feature.passes f = true) →
     st_percentage (feature_get_stats db).1 = Float.hundred).
Proof.
  unfold feature_get_stats, Query.count. simpl. split; [|split].
  - pose proof (length_filter passing db). lia.
  - intros Hnone.
    assert (filter passing db = []) as ->.
    { apply filter_nil_forall. intros f Hf Hp. specialize (Hnone f Hf).
      unfold passing in Hp. congruence. }
    case_decide; [|done]. simpl length.
    destruct (Z.of_nat (length db)) as [|m|m]; try lia.
    rewrite true_div_zero. vm_compute. reflexivity.
  - intros Hne Hall.
    assert (filter passing db = db) as ->.
    { induction db as [|a db IH]; [done|].
      rewrite filter_cons_True by (apply Hall; left).
      destruct db as [|b db]; [done|]. f_equal. apply IH; [done|].
      intros f Hf. apply Hall. by right. }
    rewrite decide_True by (destruct db; [done|simpl; lia]).
    destruct (Z.of_nat (length db)) as [|m|m] eqn:E.
    + destruct db; [done|simpl in E; lia].
    + rewrite true_div_self. vm_compute. reflexivity.
    + lia.
Qed.

(** ** feature_search: every query *)

Lemma like_cons_same (c : ascii) (p s : list ascii) :
  Like.like p s = true → Like.like (c :: p) (c :: s) = true.
Proof.
  intros H. destruct (decide (c = Like.percent)) as [->|Hc].
  - apply like_percent_iff. by exists [Like.percent], s.
  - cbn [Like.like]. rewrite decide_False by done.
    rewrite (bool_decide_eq_true_2 (c = c)) by done.
    by rewrite orb_true_r, H.
Qed.

Lemma like_app_same (q p s : list ascii) :
  Like.like p s = true → Like.like (q ++ p) (q ++ s) = true.
Proof.
  intros H. induction q as [|c q IH]; [done|].
  rewrite <- !app_comm_cons. by apply like_cons_same.
Qed.

Lemma matches_search_filter (query : string) (f : Feature.t) :
  matches query f → search_filter query f.
Proof.
  assert (Hlike : ∀ column,
            contains (Like.chars query) (Like.chars column) →
            Like.ilike column ("%" ++ query ++ "%") = true).
  { intros column (pre & post & E). unfold Like.ilike.
    rewrite chars_pattern, E. apply like_percent_iff.
    exists pre, (Like.chars query ++ post). split; [done|].
    apply like_app_same. apply like_percent_iff. exists post, [].
    by rewrite app_nil_r. }
  unfold matches, search_filter. rewrite orb_True, !Is_true_true.
  intros [H|H]; [left|right]; by apply Hlike.
Qed.




(** X16.  The results of a search, whatever the query, are rows of the
    table, no row twice, in ascending priority and no more than the limit;
    the count is their number and the table is not written. *)
Theorem search_result_bounds (query : string) (limit : Z) (db : store)
    (Hlimit : 1 ≤ limit ≤ 50) :
  ∃ rows others,
    feature_search query limit db
    = (mk_search (hit <$> rows) (Z.of_nat (length rows)), db)
    ∧ rows ++ others ≡ₚ db
    ∧ StronglySorted priority_asc rows
    ∧ (length rows ≤ Z.to_nat limit)%nat.
Proof.
  destruct (search_rows_spec query limit db) as (rest & Hperm & Hs & _ & Hlen).
  exists (search_rows query limit db),
         (rest ++ filter (λ f, ¬ search_filter query f) db).
  split; [done|]. split; [|split; [done|lia]].
  rewrite app_assoc, Hperm. apply filter_app_complement.
Qed.

Lemma search_result_bounds_witness :
  1 ≤ 1 ≤ 50
  ∧ ∃ rows, (feature_search "about" 1 db_abc).1
            = mk_search (hit <$> rows) (Z.of_nat (length rows))
            ∧ (length rows ≤ 1)%nat.
Proof.
  assert (Hl : 1 ≤ 1 ≤ 50) by lia.
  split; [exact Hl|].
  destruct (search_result_bounds "about" 1 db_abc Hl)
    as (rows & others & Heq & _ & _ & Hlen).
  exists rows. split; [by rewrite Heq|exact Hlen].
Defined.

(** X17.  The empty query matches every feature: the search returns the
    features of the table in ascending priority, cut at the limit. *)
Theorem search_empty_query (limit : Z) (db : store) (Hlimit : 1 ≤ limit ≤ 50) :
  ∃ rows rest,
    feature_search EmptyString limit db
    = (mk_search (hit <$> rows) (Z.of_nat (length rows)), db)
    ∧ rows ++ rest ≡ₚ db
    ∧ length rows = Nat.min (Z.to_nat limit) (length db)
    ∧ ∀ f g, f ∈ rows → g ∈ rest → Feature.priority f ≤ Feature.priority g.
Proof.
  assert (Hall : filter (search_filter EmptyString) db = db).
  { clear Hlimit. induction db as [|a db IH]; [done|].
    rewrite filter_cons_True; [by rewrite IH|].
    apply matches_search_filter. left. by exists [], (Like.chars (Feature.name a)). }
  destruct (search_rows_spec EmptyString limit db)
    as (rest & Hperm & _ & Hle & Hlen).
  rewrite Hall in Hperm, Hlen.
  by exists (search_rows EmptyString limit db), rest.
Qed.

Lemma search_empty_query_witness :
  1 ≤ 2 ≤ 50
  ∧ ∃ rows, (feature_search EmptyString 2 db_abc).1
            = mk_search (hit <$> rows) (Z.of_nat (length rows))
            ∧ length rows = 2%nat.
Proof.
  assert (Hl : 1 ≤ 2 ≤ 50) by lia.
  split; [exact Hl|].
  destruct (search_empty_query 2 db_abc Hl) as (rows & rest & Heq & _ & Hlen & _).
  exists rows. split; [by rewrite Heq|exact Hlen].
Defined.

(** ** client.py: the servers of a project *)

Lemma with_cwd_raises (dir : string) (v : Client.json) (e : Client.exn) :
  Client.with_cwd dir v = Client.Raises e → e = Client.TypeError.
Proof.
  unfold Client.with_cwd. destruct v as [|b|t|s|l|m]; simpl; try congruence.
  - destruct (String.index 0 "cwd" s); congruence.
  - destruct (existsb _ l); congruence.
  - destruct (bool_decide _); congruence.
Qed.

Lemma existsb_cwd (l : list Client.json) :
  existsb (λ x, if x is Client.JString s then bool_decide (s = "cwd"%string)
                else false) l = false
  ↔ Client.JString "cwd" ∉ l.
Proof.
  induction l as [|x l IH]; simpl.
  - split; [intros _; apply not_elem_of_nil|done].
  - rewrite orb_false_iff, IH, not_elem_of_cons. split.
    + intros [Hx Hl]. split; [|done]. intros <-.
      by rewrite bool_decide_eq_true_2 in Hx.
    + intros [Hx Hl]. split; [|done].
      destruct x; try done. apply bool_decide_eq_false. congruence.
Qed.

Lemma with_cwd_unusable (dir : string) (v : Client.json) :
  Client.with_cwd dir v = Client.Raises Client.TypeError ↔ Client.unusable v.
Proof.
  unfold Client.with_cwd. destruct v as [|b|t|s|l|m]; simpl; try done.
  - destruct (String.index 0 "cwd" s); split; congruence.
  - rewrite <- existsb_cwd. destruct (existsb _ l); split; congruence.
  - destruct (bool_decide _); split; done.
Qed.

Lemma with_cwd_object (dir : string) (m : gmap string Client.json) :
  Client.with_cwd dir (Client.JObject m)
  = Client.Returns (Client.JObject (Client.cwd_or dir m)).
Proof.
  unfold Client.with_cwd, Client.cwd_or. simpl.
  destruct (m !! "cwd"%string) eqn:E.
  - by rewrite bool_decide_eq_true_2 by eauto.
  - rewrite bool_decide_eq_false_2; [done|]. by intros [? ?].
Qed.

Lemma set_cwds_spec (dir : string) (config : gmap string Client.json) :
  match Client.set_cwds dir config with
  | Client.Returns servers =>
      ∀ name,
        match config !! name with
        | Some v => ∃ v', Client.with_cwd dir v = Client.Returns v'
                          ∧ servers !! name = Some v'
        | None => servers !! name = None
        end
  | Client.Raises e =>
      e = Client.TypeError
      ∧ ∃ name v, config !! name = Some v ∧ Client.unusable v
  end.
Proof.
  unfold Client.set_cwds.
  apply (map_fold_weak_ind
           (λ r (m : gmap string Client.json),
              match r with
              | Client.Returns servers =>
                  ∀ name,
                    match m !! name with
                    | Some v => ∃ v', Client.with_cwd dir v = Client.Returns v'
                                      ∧ servers !! name = Some v'
                    | None => servers !! name = None
                    end
              | Client.Raises e =>
                  e = Client.TypeError
                  ∧ ∃ name v, m !! name = Some v ∧ Client.unusable v
              end)).
  - intros name. by rewrite !lookup_empty.
  - intros i x m r Hi IH. destruct r as [servers|e].
    + destruct (Client.with_cwd dir x) as [x'|e] eqn:Ex.
      * intros name. destruct (decide (i = name)) as [->|Hne].
        -- rewrite !lookup_insert_eq. by exists x'.
        -- rewrite !lookup_insert_ne by done. apply IH.
      * pose proof (with_cwd_raises _ _ _ Ex) as ->. split; [done|].
        exists i, x. split; [apply lookup_insert_eq|].
        by apply (with_cwd_unusable dir).
    + destruct IH as (-> & name & v & Hv & Hbad). split; [done|].
      exists name, v. split; [|done].
      rewrite lookup_insert_ne; [done|]. intros ->. congruence.
Qed.

(** X18.  For a project file that holds an object of server objects,
    [get_project_mcp_servers] returns the same servers under the same
    names: a server that has a [cwd] is returned as it is, every other one
    gets the resolved project directory as its [cwd] and keeps its other
    keys. *)
Theorem project_servers_get_cwd (env : Client.environment)
    (config : gmap string Client.json)
    (Hex : Client.config_exists env = true)
    (Hload : Client.config_load env = Client.Returns (Client.JObject config))
    (Hobj : ∀ name v, config !! name = Some v → ∃ m, v = Client.JObject m) :
  ∃ servers,
    Client.get_project_mcp_servers env = Client.Returns servers
    ∧ (∀ name, config !! name = None → servers !! name = None)
    ∧ ∀ name m, config !! name = Some (Client.JObject m) →
        ∃ m', servers !! name = Some (Client.JObject m')
              ∧ m' !! "cwd"%string
                = Some (default (Client.JString (Client.resolved env))
                          (m !! "cwd"%string))
              ∧ ∀ key, key ≠ "cwd"%string → m' !! key = m !! key.
Proof.
  unfold Client.get_project_mcp_servers. rewrite Hex, Hload. simpl.
  pose proof (set_cwds_spec (Client.resolved env) config) as Hspec.
  destruct (Client.set_cwds (Client.resolved env) config) as [servers|e].
  - exists servers. split; [done|]. split.
    + intros name Hn. specialize (Hspec name). by rewrite Hn in Hspec.
    + intros name m Hn. specialize (Hspec name). rewrite Hn in Hspec.
      destruct Hspec as (v' & Hv' & Hs). rewrite with_cwd_object in Hv'.
      injection Hv' as <-. exists (Client.cwd_or (Client.resolved env) m).
      split; [done|]. unfold Client.cwd_or.
      destruct (m !! "cwd"%string) eqn:E; simpl.
      * split; [done|]. done.
      * split; [apply lookup_insert_eq|].
        intros key Hkey. by rewrite lookup_insert_ne.
  - destruct Hspec as (_ & name & v & Hv & Hbad).
    destruct (Hobj name v Hv) as [m ->]. done.
Qed.

Lemma laravel_config_objects (name : string) (v : Client.json) :
  laravel_config !! name = Some v → ∃ m, v = Client.JObject m.
Proof.
  unfold laravel_config. intros H. apply lookup_singleton_Some in H as [_ <-].
  eauto.
Qed.

Lemma project_servers_get_cwd_witness :
  Client.config_exists env_laravel = true
  ∧ Client.config_load env_laravel = Client.Returns (Client.JObject laravel_config)
  ∧ ∃ servers,
      Client.get_project_mcp_servers env_laravel = Client.Returns servers
      ∧ ∀ name, laravel_config !! name = None → servers !! name = None.
Proof.
  split; [reflexivity|]. split; [reflexivity|].
  destruct (project_servers_get_cwd env_laravel laravel_config eq_refl eq_refl
              laravel_config_objects) as (servers & Heq & Hnone & _).
  exists servers. split; [exact Heq|exact Hnone].
Defined.



(** X20.  When the project file is missing, cannot be opened or is not
    valid JSON, [get_project_mcp_servers] returns no server and
    [create_client] configures exactly the two built-in servers,
    [playwright] and [features]. *)
Theorem no_project_file (env : Client.environment) (model_name : string)
    (Hwrite : Client.write_settings env = Client.Returns tt)
    (Hnone : Client.config_exists env = false
             ∨ Client.config_load env = Client.Raises Client.OSError
             ∨ Client.config_load env = Client.Raises Client.JSONDecodeError) :
  Client.get_project_mcp_servers env = Client.Returns ∅
  ∧ ∃ c, Client.create_client env model_name = Client.Returns c
         ∧ Client.mcp_servers c = Client.base_mcp_servers env
         ∧ ∀ name, is_Some (Client.mcp_servers c !! name)
                   ↔ name = "playwright"%string ∨ name = "features"%string.
Proof.
  assert (Hget : Client.get_project_mcp_servers env = Client.Returns ∅).
  { unfold Client.get_project_mcp_servers.
    destruct (Client.config_exists env); [|done]. simpl.
    destruct Hnone as [?|[->| ->]]; done. }
  split; [done|]. unfold Client.create_client. rewrite Hwrite, Hget.
  eexists. split; [done|]. simpl. rewrite (left_id_L ∅ (∪)). split; [done|].
  intros name. unfold Client.base_mcp_servers.
  rewrite lookup_insert_is_Some, lookup_singleton_is_Some.
  split; [intros [?|[_ ?]]|intros [->| ->]]; auto.
Qed.

Lemma no_project_file_witness :
  Client.write_settings env_plain = Client.Returns tt
  ∧ Client.get_project_mcp_servers env_plain = Client.Returns ∅
  ∧ ∃ c, Client.create_client env_plain "opus" = Client.Returns c
         ∧ Client.mcp_servers c = Client.base_mcp_servers env_plain.
Proof.
  split; [reflexivity|].
  destruct (no_project_file env_plain "opus" eq_refl (or_introl eq_refl))
    as (Hget & c & Hc & Hs & _).
  split; [exact Hget|]. exists c. split; [exact Hc|exact Hs].
Defined.

Lemma project_servers_objects (env : Client.environment)
    (config : gmap string Client.json) :
  Client.config_exists env = true →
  Client.config_load env = Client.Returns (Client.JObject config) →
  (∀ name v, config !! name = Some v → ∃ m, v = Client.JObject m) →
  ∃ servers,
    Client.get_project_mcp_servers env = Client.Returns servers
    ∧ (∀ name, config !! name = None → servers !! name = None)
    ∧ ∀ name m, config !! name = Some (Client.JObject m) →
        servers !! name
        = Some (Client.JObject (Client.cwd_or (Client.resolved env) m)).
Proof.
  intros Hex Hload Hobj.
  unfold Client.get_project_mcp_servers. rewrite Hex, Hload. simpl.
  pose proof (set_cwds_spec (Client.resolved env) config) as Hspec.
  destruct (Client.set_cwds (Client.resolved env) config) as [servers|e].
  - exists servers. split; [done|]. split.
    + intros name Hn. specialize (Hspec name). by rewrite Hn in Hspec.
    + intros name m Hn. specialize (Hspec name). rewrite Hn in Hspec.
      destruct Hspec as (v' & Hv' & Hs). rewrite with_cwd_object in Hv'.
      by injection Hv' as <-.
  - destruct Hspec as (_ & name & v & Hv & Hbad).
    destruct (Hobj name v Hv) as [m ->]. done.
Qed.

(** X21.  The servers of the project file are handed to the client with
    their working directory, and they come first: a project server replaces
    a built-in server of the same name, and a built-in server is configured
    only under a name the project file does not use. *)
Theorem project_servers_override (env : Client.environment) (model_name : string)
    (config : gmap string Client.json)
    (Hwrite : Client.write_settings env = Client.Returns tt)
    (Hex : Client.config_exists env = true)
    (Hload : Client.config_load env = Client.Returns (Client.JObject config))
    (Hobj : ∀ name v, config !! name = Some v → ∃ m, v = Client.JObject m) :
  ∃ c,
    Client.create_client env model_name = Client.Returns c
    ∧ (∀ name m, config !! name = Some (Client.JObject m) →
         Client.mcp_servers c !! name
         = Some (Client.JObject (Client.cwd_or (Client.resolved env) m)))
    ∧ ∀ name, config !! name = None →
        Client.mcp_servers c !! name = Client.base_mcp_servers env !! name.
Proof.
  destruct (project_servers_objects env config Hex Hload Hobj)
    as (servers & Hget & Hnone & Hsome).
  unfold Client.create_client. rewrite Hwrite, Hget.
  eexists. split; [done|]. simpl. split.
  - intros name m Hn. apply lookup_union_Some_l. by apply Hsome.
  - intros name Hn. apply lookup_union_r. by apply Hnone.
Qed.

Lemma project_servers_override_witness :
  Client.write_settings env_laravel = Client.Returns tt
  ∧ Client.config_exists env_laravel = true
  ∧ ∃ c, Client.create_client env_laravel "opus" = Client.Returns c
         ∧ Client.mcp_servers c !! "features"%string
           = Client.base_mcp_servers env_laravel !! "features"%string.
Proof.
  split; [reflexivity|]. split; [reflexivity|].
  destruct (project_servers_override env_laravel "opus" laravel_config
              eq_refl eq_refl eq_refl laravel_config_objects)
    as (c & Hc & _ & Hbase).
  exists c. split; [exact Hc|]. apply Hbase. reflexivity.
Defined.

(** X6.  The feature [feature_get_next] returns can be acted on: skipping
    it succeeds, marking it as passing succeeds, and marking it leaves one
    pending feature fewer. *)
Theorem next_is_actionable (db : store) (d : Feature.dict)
    (Hkey : primary_key db) (Hnext : (feature_get_next db).1 = Ok d) :
  (∃ r, (feature_skip (Feature.d_id d) db).1 = Ok r
        ∧ sk_id r = Feature.d_id d
        ∧ sk_old_priority r = Feature.d_priority d)
  ∧ (∃ d', (feature_mark_passing (Feature.d_id d) db).1 = Ok d'
           ∧ Feature.d_id d' = Feature.d_id d
           ∧ Feature.d_passes d' = true)
  ∧ st_total (feature_get_stats (feature_mark_passing (Feature.d_id d) db).2).1
    - st_passing (feature_get_stats (feature_mark_passing (Feature.d_id d) db).2).1
    = st_total (feature_get_stats db).1 - st_passing (feature_get_stats db).1 - 1.
Proof.
  apply get_next_Ok_inv in Hnext as (f & -> & Hf & Hp & _). simpl.
  assert (Hget : get (Feature.id f) db = Some f) by by apply get_elem_of.
  split; [|split].
  - unfold feature_skip. rewrite Hget, Hp.
    eexists. split; [reflexivity|]. simpl. unfold refresh. simpl.
    rewrite get_update_where, Hget by done. done.
  - unfold feature_mark_passing. rewrite Hget.
    eexists. split; [reflexivity|]. simpl. unfold refresh. simpl.
    rewrite get_update_where, Hget by done. done.
  - unfold feature_mark_passing. rewrite Hget. simpl. unfold Query.count.
    rewrite count_passing_update, count_pending_id, Hp by done.
    unfold update_where. rewrite length_fmap. lia.
Qed.

Lemma next_is_actionable_witness :
  primary_key db_abc
  ∧ (feature_get_next db_abc).1 = Ok (Feature.to_dict (row 2 2 "B" false))
  ∧ ∃ r, (feature_skip 2 db_abc).1 = Ok r ∧ sk_old_priority r = 2.
Proof.
  assert (Hkey : primary_key db_abc) by key_by_computation.
  assert (Hnext : (feature_get_next db_abc).1
                  = Ok (Feature.to_dict (row 2 2 "B" false))).
  { vm_compute. reflexivity. }
  split; [exact Hkey|]. split; [exact Hnext|].
  destruct (next_is_actionable db_abc _ Hkey Hnext) as [(r & Hr & _ & Hold) _].
  exists r. split; [exact Hr|exact Hold].
Defined.
